(** * Huffman steganography: the codec of huffman.cpp and the bit channel

    The development embeds the C++ program [huffman.cpp] (tree construction,
    code assignment, the encode and decode modes of [main]) and the
    LSB bit channel of the specification, and proves the properties the
    specification states about them. *)

From Stdlib Require Import ZArith Ascii String List Permutation Lia.
From stdpp Require Import gmap list strings sorting.

Local Open Scope Z_scope.

(** ** Data model *)

(** A [std::string] is a sequence of [char]; string literals of the program
    are written through [list_ascii_of_string]. *)
Abbreviation cstring := (list ascii).
Abbreviation lit := list_ascii_of_string.

(** [int] is a 32-bit two's complement integer. *)
Definition int_wrap (z : Z) : Z := (z + 2 ^ 31) mod 2 ^ 32 - 2 ^ 31.
Definition int_add (a b : Z) : Z := int_wrap (a + b).

(** [(int)c] for the (signed) [char] type, and [(char)charCode]. *)
Definition int_of_char (c : ascii) : Z :=
  let n := Z.of_N (N_of_ascii c) in
  if n <? 128 then n else n - 256.
Definition char_of_int (z : Z) : ascii := ascii_of_N (Z.to_N (z mod 256)).

(** [struct Node { char ch; int freq; Node *left, *right; }]; a [Node*] is
    either [NULL] or points to a node that owns its two children. *)
Inductive Node : Type :=
  | NULL
  | node (ch : ascii) (freq : Z) (left right : Node).

Definition node_freq (n : Node) : Z :=
  match n with NULL => 0 | node _ f _ _ => f end.

Definition is_null (n : Node) : bool :=
  match n with NULL => true | node _ _ _ _ => false end.

(** [cmp]: [a->freq > b->freq]. *)
Definition cmp (a b : Node) : bool := node_freq b <? node_freq a.

(** ** What the C++ standard library leaves to the implementation

    The iteration order of [unordered_map] and the way
    [priority_queue] arranges its elements (hence how ties between equal
    frequencies are broken) are not fixed by the language.  The program is
    modelled over any implementation that satisfies the library contract. *)
Class StdImpl := {
  (** [for (auto& [k, v] : m)] visits every entry of [m] once. *)
  umap_iter : ∀ {V : Type}, gmap ascii V → list (ascii * V);
  umap_iter_perm : ∀ (V : Type) (m : gmap ascii V),
    umap_iter m ≡ₚ map_to_list m;
  (** [priority_queue<Node*, vector<Node*>, cmp>] *)
  pq : Type;
  pq_new : pq;
  pq_elems : pq → list Node;
  pq_size : pq → nat;
  pq_push : Node → pq → pq;
  pq_top : pq → option Node;
  pq_pop : pq → pq;
  pq_new_elems : pq_elems pq_new = [];
  pq_size_elems : ∀ q, pq_size q = length (pq_elems q);
  pq_push_elems : ∀ n q, pq_elems (pq_push n q) ≡ₚ n :: pq_elems q;
  pq_top_pop_elems : ∀ q, pq_elems q ≠ [] →
    ∃ n, pq_top q = Some n
         ∧ pq_elems q ≡ₚ n :: pq_elems (pq_pop q)
         ∧ Forall (λ m, cmp n m = false) (pq_elems q)
}.

(** ** huffman.cpp *)

Fixpoint buildCode (root : Node) (str : cstring) (codes : gmap ascii cstring)
  : gmap ascii cstring :=
  match root with
  | NULL => codes
  | node ch _ l r =>
    if is_null l && is_null r then
      <[ch := match str with [] => lit "0" | _ => str end]> codes
    else
      buildCode r (str ++ lit "1") (buildCode l (str ++ lit "0") codes)
  end.

(** [deleteTree]: the nodes, in the order in which they are deleted. *)
Fixpoint deleteTree (root : Node) : list Node :=
  match root with
  | NULL => []
  | node _ _ l r => deleteTree l ++ deleteTree r ++ [root]
  end.

(** What one run of the program prints on standard output. *)
Inductive printed : Type :=
  | PrintedCode (encoded : cstring) (map : list (Z * cstring))
  | PrintedText (decoded : cstring).

(** Exit status, standard output (if anything was printed) and the
    diagnostics written to standard error. *)
Record outcome : Type := Outcome {
  exit_code : Z;
  stdout : option printed;
  stderr : list string
}.

Definition failure (msg : string) : outcome :=
  {| exit_code := 1; stdout := None; stderr := [msg] |}.

(** [m[k]] on an [unordered_map]: a missing key is inserted with a
    value-initialised entry, whose reference is returned. *)
Definition umap_index `{Countable K} {V} (dflt : V) (m : gmap K V) (k : K)
  : V * gmap K V :=
  match m !! k with
  | Some v => (v, m)
  | None => (dflt, <[k := dflt]> m)
  end.

(** [freq[c]++], and [for (char c : text) freq[c]++;] *)
Definition count_step (freq : gmap ascii Z) (c : ascii) : gmap ascii Z :=
  let '(f, freq) := umap_index 0 freq c in <[c := int_add f 1]> freq.

Definition count_freq (text : cstring) : gmap ascii Z :=
  foldl count_step ∅ text.

(** [for (char c : text) encoded += codes[c];] *)
Fixpoint encode_loop (text : cstring) (codes : gmap ascii cstring)
    (encoded : cstring) : cstring * gmap ascii cstring :=
  match text with
  | [] => (encoded, codes)
  | c :: text =>
    let '(code, codes) := umap_index [] codes c in
    encode_loop text codes (encoded ++ code)
  end.

(** The decode loop; the result is the final [decoded] and [current]. *)
Fixpoint decode_loop (revCodes : gmap cstring ascii) (bits : cstring)
    (decoded current : cstring) : cstring * cstring :=
  match bits with
  | [] => (decoded, current)
  | bit :: bits =>
    let current := current ++ [bit] in
    match revCodes !! current with
    | Some ch => decode_loop revCodes bits (decoded ++ [ch]) []
    | None => decode_loop revCodes bits decoded current
    end
  end.

(** [while (cin >> charCode >> code) revCodes[code] = (char)charCode;]
    over the pairs that were read from standard input. *)
Definition read_code_map (stdin : list (Z * cstring)) : gmap cstring ascii :=
  foldl (λ revCodes '(charCode, code), <[code := char_of_int charCode]> revCodes)
        ∅ stdin.

(** Mode [decode] with [argv[2] = bits] and the code map on standard
    input. *)
Definition decode_mode (bits : cstring) (stdin : list (Z * cstring))
  : option outcome :=
  if decide (bits = []) then Some (failure "Error: Empty bits")
  else
    let revCodes := read_code_map stdin in
    if decide (revCodes = ∅) then Some (failure "Error: No code map provided")
    else
      let '(decoded, current) := decode_loop revCodes bits [] [] in
      Some {| exit_code := 0;
              stdout := Some (PrintedText decoded);
              stderr := if decide (current = []) then []
                        else ["Warning: Incomplete code at end"%string] |}.

Section Program.
Context `{StdImpl}.

(** [for (auto& [c, f] : freq) pq.push(new Node(c, f));] *)
Definition fill_queue (freq : gmap ascii Z) : pq :=
  foldl (λ q '(c, f), pq_push (node c f NULL NULL) q) pq_new (umap_iter freq).

(** The single character case.  [None] stands for a call the library
    leaves undefined ([top] of an empty queue). *)
Definition single_case (q : pq) : option pq :=
  if decide (pq_size q = 1%nat) then
    single ← pq_top q;
    let q := pq_pop q in
    let root := node "000" (node_freq single) single NULL in
    Some (pq_push root q)
  else Some q.

(** [while (pq.size() > 1) { ... }]; [fuel] bounds the number of
    iterations. *)
Fixpoint merge_loop (fuel : nat) (q : pq) : option pq :=
  if decide (1 < pq_size q)%nat then
    match fuel with
    | O => None
    | S fuel =>
      l ← pq_top q;
      let q := pq_pop q in
      r ← pq_top q;
      let q := pq_pop q in
      let merged := node "000" (int_add (node_freq l) (node_freq r)) l r in
      merge_loop fuel (pq_push merged q)
    end
  else Some q.

(** The tree built from a frequency map: fill the queue, treat the single
    character case, merge, and take the root. *)
Definition build_tree (freq : gmap ascii Z) : option Node :=
  q ← single_case (fill_queue freq);
  q ← merge_loop (pq_size q) q;
  pq_top q.

Definition build_codes (freq : gmap ascii Z) : option (gmap ascii cstring) :=
  root ← build_tree freq;
  Some (buildCode root [] ∅).

(** [for (auto& [c, code] : codes) cout << (int)c << " " << code << "\n";] *)
Definition print_code_map (codes : gmap ascii cstring) : list (Z * cstring) :=
  (λ '(c, code), (int_of_char c, code)) <$> umap_iter codes.

(** Mode [encode] with [argv[2] = text]. *)
Definition encode_mode (text : cstring) : option outcome :=
  if decide (text = []) then Some (failure "Error: Empty text")
  else
    codes ← build_codes (count_freq text);
    let '(encoded, codes) := encode_loop text codes [] in
    Some {| exit_code := 0;
            stdout := Some (PrintedCode encoded (print_code_map codes));
            stderr := [] |}.

Definition main (argv : list cstring) (stdin : list (Z * cstring))
  : option outcome :=
  match argv with
  | [] | [_] => Some (failure "Usage: huffman <encode|decode> [args]")
  | _ :: mode :: args =>
    if decide (mode = lit "encode") then
      match args with
      | [] => Some (failure "Usage: huffman encode <input_text>")
      | text :: _ => encode_mode text
      end
    else if decide (mode = lit "decode") then
      match args with
      | [] => Some (failure "Usage: huffman decode <encoded_bits>")
      | bits :: _ => decode_mode bits stdin
      end
    else Some (failure ("Unknown mode: " +:+ string_of_list_ascii mode))
  end.
End Program.

(** ** The bit channel *)

Module BitChannel.

(** Modelled from the spec: the pixel buffer of section 3 (the image
    handling of the Python backend is not among the source files): a
    pixel has three 8-bit channels R, G, B. *)
Record pixel : Type := Pixel { red : Z; green : Z; blue : Z }.

(** Modelled from the spec: the failures of the bit channel named in
    sections 4.4 and 7; a capacity error carries the required and the
    available number of bit-slots. *)
Inductive error : Type :=
  | CapacityError (required available : Z)
  | CorruptHeaderError.

(** Modelled from the spec: [len(bitstring)] and the pixel count, as
    integers. *)
Definition len {A} (l : list A) : Z := Z.of_nat (length l).

(** Modelled from the spec: the channels of a pixel in channel order
    (R, G, B), numbered 0, 1, 2. *)
Definition channel (k : nat) (p : pixel) : Z :=
  match k with O => red p | S O => green p | _ => blue p end.

(** Modelled from the spec: overwriting the least-significant bit of an
    8-bit channel value, the other seven bits untouched. *)
Definition set_lsb (c : Z) (b : bool) : Z := Z.lor (Z.land c 254) (Z.b2z b).

(** Modelled from the spec: one bit written into channel [k] of a pixel,
    the other two channels untouched. *)
Definition set_channel (k : nat) (b : bool) (p : pixel) : pixel :=
  match k with
  | O => Pixel (set_lsb (red p) b) (green p) (blue p)
  | S O => Pixel (red p) (set_lsb (green p) b) (blue p)
  | _ => Pixel (red p) (green p) (set_lsb (blue p) b)
  end.

(** Modelled from the spec: bit-slot [i] is the least-significant bit of
    channel [i mod 3] of pixel [i div 3]. *)
Definition write_slot (buf : list pixel) (i : nat) (b : bool) : list pixel :=
  alter (set_channel (i mod 3) b) (i / 3)%nat buf.

(** Modelled from the spec: reading bit-slot [i] (no slot, no bit: the
    callers stay within the buffer). *)
Definition read_slot (buf : list pixel) (i : nat) : bool :=
  match buf !! (i / 3)%nat with
  | Some p => Z.odd (channel (i mod 3) p)
  | None => false
  end.

(** Modelled from the spec: the bits written one per slot, from slot [i]
    on. *)
Fixpoint write_bits (buf : list pixel) (i : nat) (bits : list bool)
  : list pixel :=
  match bits with
  | [] => buf
  | b :: bits => write_bits (write_slot buf i b) (S i) bits
  end.

(** Modelled from the spec: the [n] bit-slots from slot [start] on. *)
Definition read_bits (buf : list pixel) (start n : nat) : list bool :=
  read_slot buf <$> seq start n.

(** Modelled from the spec: the fixed-width header, a 24-bit big-endian
    integer.  [to_bits k n] is the [k] low bits of [n], most significant
    first; a length that needs more than 24 bits keeps its low 24 bits. *)
Fixpoint to_bits (k : nat) (n : Z) : list bool :=
  match k with
  | O => []
  | S k => to_bits k (n / 2) ++ [Z.odd n]
  end.

(** Modelled from the spec: the integer a big-endian bit sequence
    encodes. *)
Definition of_bits (bits : list bool) : Z :=
  foldl (λ acc b, 2 * acc + Z.b2z b) 0 bits.

(** Modelled from the spec: the 24 header bits for a payload of [n]
    bits. *)
Definition header (n : Z) : list bool := to_bits 24 n.

(** Modelled from the spec: [embed] of section 4.4.  The buffer is
    mutated in place: the result is the buffer after the call together
    with the failure, if any.  The capacity is checked first. *)
Definition embed (pixelBuffer : list pixel) (bitstring : list bool)
  : list pixel * option error :=
  let total := 24 + len bitstring in
  let available := 3 * len pixelBuffer in
  if available <? total then
    (pixelBuffer, Some (CapacityError total available))
  else
    (write_bits pixelBuffer 0 (header (len bitstring) ++ bitstring), None).

(** Modelled from the spec: [extract] of section 4.4.  A buffer too
    small to hold the 24 header slots is reported as a corrupt header. *)
Definition extract (pixelBuffer : list pixel) : error + list bool :=
  let available := 3 * len pixelBuffer in
  if available <? 24 then inl CorruptHeaderError
  else
    let declared := of_bits (read_bits pixelBuffer 0 24) in
    if available - 24 <? declared then inl CorruptHeaderError
    else inr (read_bits pixelBuffer 24 (Z.to_nat declared)).

End BitChannel.

(** ** Definitions used to state the properties *)

(** The code of a symbol in a table, an absent code counting as empty. *)
Definition code_of (codes : gmap ascii cstring) (c : ascii) : cstring :=
  default [] (codes !! c).

(** The entries [buildCode] writes, in the order it writes them. *)
Fixpoint code_list (root : Node) (str : cstring) : list (ascii * cstring) :=
  match root with
  | NULL => []
  | node ch _ l r =>
    if is_null l && is_null r then
      [(ch, match str with [] => lit "0" | _ => str end)]
    else code_list l (str ++ lit "0") ++ code_list r (str ++ lit "1")
  end.

(** The symbols at the leaves, left to right. *)
Fixpoint leaves (root : Node) : list ascii :=
  match root with
  | NULL => []
  | node ch _ l r =>
    if is_null l && is_null r then [ch] else leaves l ++ leaves r
  end.

Definition write_entry (codes : gmap ascii cstring) (e : ascii * cstring)
  : gmap ascii cstring := <[e.1 := e.2]> codes.

(** Two codes, neither of which is a prefix of the other. *)
Definition incomparable (x y : ascii * cstring) : Prop :=
  ¬ x.2 `prefix_of` y.2 ∧ ¬ y.2 `prefix_of` x.2.

Fixpoint prefix_free_list (L : list (ascii * cstring)) : Prop :=
  match L with
  | [] => True
  | x :: L => Forall (incomparable x) L ∧ prefix_free_list L
  end.

(** The leaf pushed for one entry of the frequency map. *)
Definition leaf_node (e : ascii * Z) : Node := node e.1 e.2 NULL NULL.

(** The leaf symbols of all the trees in the queue, and the queue
    invariant that no element is a null pointer. *)
Definition queue_leaves `{StdImpl} (q : pq) : list ascii := pq_elems q ≫= leaves.
Definition queue_nonnull `{StdImpl} (q : pq) : Prop :=
  Forall (λ n, n ≠ NULL) (pq_elems q).

(** One pair read from standard input, as the entry it adds to [revCodes]. *)
Definition swap_entry (e : Z * cstring) : cstring * ascii :=
  (e.2, char_of_int e.1).

(** The frequencies of "abracadabra". *)
Definition abracadabra_freq : gmap ascii Z :=
  <["a"%char := 5]> (<["b"%char := 2]> (<["r"%char := 2]>
    (<["c"%char := 1]> (<["d"%char := 1]> ∅)))).

(** A node without children ([!root->left && !root->right]). *)
Definition is_leaf (n : Node) : bool :=
  match n with NULL => false | node _ _ l r => is_null l && is_null r end.

(** A bit character, ['0'] or ['1']. *)
Definition is_bit (b : ascii) : Prop := b = "0"%char ∨ b = "1"%char.

(** The trees that [main] builds from a frequency map with at least two
    symbols: the leaves pushed for its entries, and the nodes merged from
    two trees popped in this order, the first no more frequent than the
    second. *)
Inductive built (freq : gmap ascii Z) : Node → Prop :=
  | built_leaf c f :
      freq !! c = Some f → built freq (node c f NULL NULL)
  | built_merge l r :
      built freq l → built freq r → node_freq l ≤ node_freq r →
      built freq (node "000" (int_add (node_freq l) (node_freq r)) l r).

(** The sum of the frequencies at the leaves, without wrap-around. *)
Fixpoint weight (root : Node) : Z :=
  match root with
  | NULL => 0
  | node _ f l r =>
    if is_null l && is_null r then f else weight l + weight r
  end.

(** The number of nodes that have a child. *)
Fixpoint internal_nodes (root : Node) : nat :=
  match root with
  | NULL => O
  | node _ _ l r =>
    if is_null l && is_null r then O
    else S (internal_nodes l + internal_nodes r)
  end.

(** Every node with two children has its less frequent child on the left. *)
Fixpoint left_lighter (root : Node) : Prop :=
  match root with
  | NULL => True
  | node _ _ l r =>
    (l ≠ NULL → r ≠ NULL → node_freq l ≤ node_freq r)
    ∧ left_lighter l ∧ left_lighter r
  end.

(** Following a path from a node: ['0'] goes left, ['1'] goes right. *)
Fixpoint descend (root : Node) (path : cstring) {struct path} : option Node :=
  match path with
  | [] => Some root
  | b :: path =>
    match root with
    | NULL => None
    | node _ _ l r =>
      if decide (b = "0"%char) then descend l path
      else if decide (b = "1"%char) then descend r path
      else None
    end
  end.

(** The sum of the values of a frequency map. *)
Definition total (freq : gmap ascii Z) : Z :=
  foldr Z.add 0 (map_to_list freq).*2.

(** The number of occurrences of a symbol in a text. *)
Definition occurrences (c : ascii) (text : cstring) : Z :=
  Z.of_nat (length (filter (λ x, x = c) text)).

(** A word of the table none of whose shorter non-empty prefixes is in the
    table: what the greedy scan matches. *)
Definition greedy_word (revCodes : gmap cstring ascii) (w : cstring) (ch : ascii)
  : Prop :=
  w ≠ [] ∧ revCodes !! w = Some ch
  ∧ ∀ p, p ≠ [] → p `prefix_of` w → p ≠ w → revCodes !! p = None.

(** A candidate no non-empty prefix of which is in the table. *)
Definition unmatched (revCodes : gmap cstring ascii) (cur : cstring) : Prop :=
  ∀ p, p ≠ [] → p `prefix_of` cur → revCodes !! p = None.

(** The number of leading '0' characters. *)
Fixpoint leading_zeros (bits : cstring) : nat :=
  match bits with
  | b :: bits => if decide (b = "0"%char) then S (leading_zeros bits) else O
  | [] => O
  end.

(** The two ways a run ends: status 0 with output, or status 1 without
    output and with one diagnostic line. *)
Definition well_formed_outcome (o : outcome) : Prop :=
  (exit_code o = 0 ∧ is_Some (stdout o))
  ∨ (exit_code o = 1 ∧ stdout o = None ∧ length (stderr o) = 1%nat).

(** ** A reference implementation of the library contract

    The queue keeps its elements in a list; [top] scans for an element of
    least frequency (the first one, on ties), and maps are iterated in the
    order of [map_to_list]. *)
Module ListImpl.
Fixpoint pick_min (q : list Node) : option (Node * list Node) :=
  match q with
  | [] => None
  | n :: q' =>
    match pick_min q' with
    | None => Some (n, [])
    | Some (m, rest) => if cmp n m then Some (m, n :: rest) else Some (n, q')
    end
  end.

Definition top (q : list Node) : option Node := fst <$> pick_min q.
Definition pop (q : list Node) : list Node :=
  match pick_min q with Some (_, rest) => rest | None => [] end.

Lemma pick_min_spec q :
  q ≠ [] →
  ∃ n rest, pick_min q = Some (n, rest) ∧ q ≡ₚ n :: rest
            ∧ Forall (λ m, cmp n m = false) q.
Proof.
  induction q as [|a q IH]; [done|intros _].
  destruct q as [|b q].
  - exists a, []. simpl. repeat split; [done|].
    constructor; [|constructor]. unfold cmp. lia.
  - destruct IH as (m & rest & Hpick & Hperm & Hmin); [done|].
    change (pick_min (a :: b :: q))
      with (match pick_min (b :: q) with
            | None => Some (a, [])
            | Some (m, rest) =>
              if cmp a m then Some (m, a :: rest) else Some (a, b :: q)
            end).
    rewrite Hpick. destruct (cmp a m) eqn:Hc.
    + exists m, (a :: rest). repeat split.
      * rewrite Hperm. apply perm_swap.
      * constructor; [|done]. unfold cmp in *. lia.
    + exists a, (b :: q). split; [done|]. split; [done|].
      constructor; [unfold cmp; lia|].
      eapply Forall_impl; [exact Hmin|].
      assert (Hm : Forall (λ x, cmp m x = false) [m]).
      { eapply Forall_forall in Hmin; [|rewrite Hperm; left]. by constructor. }
      unfold cmp in *. simpl. intros; lia.
Qed.

Lemma top_pop_spec q :
  q ≠ [] →
  ∃ n, top q = Some n ∧ q ≡ₚ n :: pop q ∧ Forall (λ m, cmp n m = false) q.
Proof.
  intros Hq. destruct (pick_min_spec q Hq) as (n & rest & Hp & Hperm & Hmin).
  exists n. unfold top, pop. rewrite Hp. done.
Qed.

#[export] Instance impl : StdImpl := {|
  umap_iter := λ V m, map_to_list m;
  umap_iter_perm := λ V m, reflexivity (map_to_list m);
  pq := list Node;
  pq_new := [];
  pq_elems := λ q, q;
  pq_size := λ q, length q;
  pq_push := λ n q, n :: q;
  pq_top := top;
  pq_pop := pop;
  pq_new_elems := eq_refl;
  pq_size_elems := λ q, eq_refl;
  pq_push_elems := λ n q, reflexivity (n :: q);
  pq_top_pop_elems := top_pop_spec
|}.
End ListImpl.


(** * Properties *)

(** ** Characters and the code map read from standard input *)

Lemma char_of_int_of_char (c : ascii) : char_of_int (int_of_char c) = c.
Proof. by destruct c as [[] [] [] [] [] [] [] []]. Qed.

Lemma read_code_map_snoc stdin charCode code :
  read_code_map (stdin ++ [(charCode, code)])
  = <[code := char_of_int charCode]> (read_code_map stdin).
Proof. unfold read_code_map. by rewrite foldl_snoc. Qed.

Lemma read_code_map_empty_iff stdin : read_code_map stdin = ∅ ↔ stdin = [].
Proof.
  split; [|by intros ->].
  destruct stdin as [|x stdin _] using rev_ind; [done|].
  destruct x as [charCode code]. rewrite read_code_map_snoc.
  intros Hins. by apply insert_non_empty in Hins.
Qed.

(** ** The decode mode: guards and the incomplete-code warning *)

Lemma decode_loop_current_bits revCodes bits decoded current :
  (decode_loop revCodes bits decoded current).2 ≠ [] → bits ≠ [] ∨ current ≠ [].
Proof. destruct bits; simpl; [by right|by left]. Qed.

(** C10: the decode mode rejects the empty bitstring with the fatal error
    "Error: Empty bits" whatever is on standard input (the code map is not
    read): exit status 1, nothing printed. *)
Theorem decode_empty_bits_rejected `{StdImpl} :
  ∀ (prog : cstring) (rest : list cstring) (stdin : list (Z * cstring)),
    decode_mode [] stdin = Some (failure "Error: Empty bits")
    ∧ main (prog :: lit "decode" :: [] :: rest) stdin
      = Some {| exit_code := 1; stdout := None;
                stderr := ["Error: Empty bits"%string] |}.
Proof. done. Qed.

(** C9, as stated, fails: with no code map and the empty bitstring the
    failure is "Error: Empty bits", not the missing-code-map error. *)
Lemma decode_no_code_map_empty_bits :
  read_code_map [] = ∅
  ∧ decode_mode [] [] = Some (failure "Error: Empty bits")
  ∧ decode_mode [] [] ≠ Some (failure "Error: No code map provided").
Proof. done. Qed.

(** C9, amended: when no code map is supplied, the decode mode fails and
    prints no text; for a non-empty bitstring the failure is
    "Error: No code map provided", for the empty bitstring it is
    "Error: Empty bits". *)
Theorem decode_no_code_map (bits : cstring) (stdin : list (Z * cstring)) :
  read_code_map stdin = ∅ →
  (bits ≠ [] → decode_mode bits stdin
               = Some {| exit_code := 1; stdout := None;
                         stderr := ["Error: No code map provided"%string] |})
  ∧ (bits = [] → decode_mode bits stdin
                 = Some {| exit_code := 1; stdout := None;
                           stderr := ["Error: Empty bits"%string] |})
  ∧ (∃ msg, decode_mode bits stdin = Some (failure msg)).
Proof.
  intros Hempty. unfold decode_mode. rewrite Hempty.
  destruct (decide (bits = [])) as [->|Hbits]; simpl.
  - split; [done|]. split; [done|]. eauto.
  - split; [done|]. split; [done|]. eauto.
Qed.

Lemma decode_no_code_map_witness :
  read_code_map [] = ∅
  ∧ ∃ msg, decode_mode (lit "0110") [] = Some (failure msg).
Proof.
  split; [reflexivity|].
  exact (proj2 (proj2 (decode_no_code_map (lit "0110") [] eq_refl))).
Defined.

(** C6, as stated, fails: with an empty reverse code table the greedy scan
    of "1" leaves the candidate "1", yet the decode mode fails. *)
Lemma decode_dangling_empty_table :
  (decode_loop (read_code_map []) (lit "1") [] []).2 = lit "1"
  ∧ decode_mode (lit "1") [] = Some (failure "Error: No code map provided").
Proof. done. Qed.

(** C6, amended: for every bitstring and every non-empty reverse code
    table, if the greedy left-to-right scan ends with a non-empty
    unmatched candidate, the decode mode does not fail: it exits with
    status 0, prints all symbols decoded so far, and writes the diagnostic
    "Warning: Incomplete code at end" to standard error. *)
Theorem decode_dangling_warning (bits : cstring) (stdin : list (Z * cstring)) :
  read_code_map stdin ≠ ∅ →
  (decode_loop (read_code_map stdin) bits [] []).2 ≠ [] →
  decode_mode bits stdin
  = Some {| exit_code := 0;
            stdout := Some (PrintedText
                       (decode_loop (read_code_map stdin) bits [] []).1);
            stderr := ["Warning: Incomplete code at end"%string] |}.
Proof.
  intros Htable Hcur. unfold decode_mode.
  destruct (decide (bits = [])) as [->|Hbits]; [done|].
  destruct (decide (read_code_map stdin = ∅)); [done|].
  destruct (decode_loop _ bits [] []) as [decoded current]; simpl in *.
  by destruct (decide (current = [])).
Qed.

(** The scenario of the specification: codes a:"0", b:"10", bits "01". *)
Lemma decode_dangling_warning_witness :
  decode_mode (lit "01") [(97, lit "0"); (98, lit "10")]
  = Some {| exit_code := 0; stdout := Some (PrintedText (lit "a"));
            stderr := ["Warning: Incomplete code at end"%string] |}.
Proof.
  apply (decode_dangling_warning (lit "01") [(97, lit "0"); (98, lit "10")]).
  - intros Hempty. apply read_code_map_empty_iff in Hempty. discriminate.
  - vm_compute. discriminate.
Defined.

(** ** The frequency table and the encode guard *)

Lemma count_step_dom freq c : dom (count_step freq c) = {[c]} ∪ dom freq.
Proof.
  unfold count_step, umap_index. destruct (freq !! c);
    rewrite ?dom_insert_L; set_solver.
Qed.

Lemma count_fold_dom text freq :
  dom (foldl count_step freq text) = list_to_set text ∪ dom freq.
Proof.
  revert freq; induction text as [|c text IH]; intros freq; simpl.
  - set_solver.
  - rewrite IH, count_step_dom. set_solver.
Qed.

Lemma count_freq_dom text : dom (count_freq text) = list_to_set text.
Proof.
  unfold count_freq. rewrite count_fold_dom, dom_empty_L. set_solver.
Qed.

Lemma count_freq_empty_iff text : count_freq text = ∅ ↔ text = [].
Proof.
  split; [|by intros ->].
  intros Hempty. pose proof (count_freq_dom text) as Hdom.
  rewrite Hempty, dom_empty_L in Hdom.
  destruct text as [|c text]; [done|]. set_solver.
Qed.

(** C8: encoding the empty text fails with "Error: Empty text": exit status
    1 and nothing printed, so neither a tree nor a code table is produced;
    the frequency map is empty exactly for the empty text, so the same guard
    keeps the empty frequency map away from the tree construction. *)
Theorem encode_empty_text_rejected `{StdImpl} :
  ∀ (prog : cstring) (rest : list cstring) (stdin : list (Z * cstring)),
    encode_mode [] = Some (failure "Error: Empty text")
    ∧ main (prog :: lit "encode" :: [] :: rest) stdin
      = Some {| exit_code := 1; stdout := None;
                stderr := ["Error: Empty text"%string] |}
    ∧ (∀ text, count_freq text = ∅ ↔ text = []).
Proof. intros. repeat split; try done; apply count_freq_empty_iff. Qed.

(** ** The encode loop *)

Lemma encode_loop_closed text codes encoded :
  (encode_loop text codes encoded).1 = encoded ++ (text ≫= code_of codes).
Proof.
  revert codes encoded; induction text as [|c text IH]; intros codes encoded.
  - simpl. by rewrite app_nil_r.
  - simpl. unfold umap_index. destruct (codes !! c) as [code|] eqn:Hc.
    + rewrite IH. unfold code_of at 2. rewrite Hc. simpl. by rewrite app_assoc.
    + rewrite IH. unfold code_of at 2. rewrite Hc. simpl.
      rewrite app_nil_r. f_equal. apply list_bind_ext; [|done].
      intros c'. unfold code_of. destruct (decide (c = c')) as [->|Hne].
      * by rewrite lookup_insert_eq, Hc.
      * by rewrite lookup_insert_ne.
Qed.

Lemma encode_loop_table text codes encoded :
  (∀ c, c ∈ text → is_Some (codes !! c)) →
  (encode_loop text codes encoded).2 = codes.
Proof.
  revert encoded; induction text as [|c text IH]; intros encoded Hall; [done|].
  simpl. unfold umap_index.
  destruct (Hall c) as [code Hc]; [left|]. rewrite Hc.
  apply IH. intros c' Hc'. apply Hall. by right.
Qed.

(** C7, as stated, fails: the symbol [a] has no entry in the empty code
    table, and the encode loop still produces a bitstring (the empty one),
    after inserting an empty code for [a]. *)
Lemma encode_unknown_symbol_no_error :
  (∅ : gmap ascii cstring) !! "a"%char = None
  ∧ encode_loop (lit "a") ∅ [] = ([], {["a"%char := []]}).
Proof. done. Qed.

(** C7, amended: the encode loop never fails.  A symbol without an entry in
    the code table contributes the empty string to the bitstring (and
    receives an empty entry in the table): the result is the concatenation,
    in input order, of the codes of the symbols, an absent code counting as
    empty. *)
Theorem encode_loop_total (text : cstring) (codes : gmap ascii cstring) :
  (encode_loop text codes []).1 = text ≫= (λ c, default [] (codes !! c))
  ∧ ∀ c rest encoded, codes !! c = None →
      encode_loop (c :: rest) codes encoded
      = encode_loop rest (<[c := []]> codes) encoded.
Proof.
  split; [apply (encode_loop_closed text codes [])|].
  intros c rest encoded Hc. simpl. unfold umap_index. rewrite Hc.
  by rewrite app_nil_r.
Qed.

(** ** Code assignment: what [buildCode] writes into the table *)

Lemma buildCode_code_list root str codes :
  buildCode root str codes = foldl write_entry codes (code_list root str).
Proof.
  revert str codes; induction root as [|ch f l IHl r IHr]; intros str codes.
  - done.
  - simpl. destruct (is_null l && is_null r); [done|].
    by rewrite foldl_app, <- IHl, <- IHr.
Qed.

Lemma code_list_leaves root str : (code_list root str).*1 = leaves root.
Proof.
  revert str; induction root as [|ch f l IHl r IHr]; intros str; [done|].
  simpl. destruct (is_null l && is_null r); [done|].
  by rewrite fmap_app, IHl, IHr.
Qed.

Lemma code_list_prefix root str e :
  str ≠ [] → e ∈ code_list root str → str `prefix_of` e.2.
Proof.
  revert str; induction root as [|ch f l IHl r IHr]; intros str Hstr He.
  - by apply elem_of_nil in He.
  - simpl in He. destruct (is_null l && is_null r).
    + apply list_elem_of_singleton in He as ->. by destruct str.
    + apply elem_of_app in He as [He|He].
      * apply IHl in He; [|by destruct str]. by eapply prefix_app_l.
      * apply IHr in He; [|by destruct str]. by eapply prefix_app_l.
Qed.

Lemma code_list_nonempty root str e : e ∈ code_list root str → e.2 ≠ [].
Proof.
  revert str; induction root as [|ch f l IHl r IHr]; intros str He.
  - by apply elem_of_nil in He.
  - simpl in He. destruct (is_null l && is_null r).
    + apply list_elem_of_singleton in He as ->. by destruct str.
    + apply elem_of_app in He as [He|He]; eauto.
Qed.

Lemma prefix_free_list_app L1 L2 :
  prefix_free_list L1 → prefix_free_list L2 →
  (∀ x y, x ∈ L1 → y ∈ L2 → incomparable x y) →
  prefix_free_list (L1 ++ L2).
Proof.
  intros H1 H2 Hcross. induction L1 as [|x L1 IH]; [done|].
  destruct H1 as [Hx H1]. simpl. split.
  - apply Forall_app. split; [done|].
    apply Forall_forall. intros y Hy. apply Hcross; [left|done].
  - apply IH; [done|]. intros x' y Hx' Hy. apply Hcross; [by right|done].
Qed.

Lemma prefix_free_list_elem L x y :
  prefix_free_list L → x ∈ L → y ∈ L → x.2 `prefix_of` y.2 → x = y.
Proof.
  induction L as [|z L IH]; intros Hpf Hx Hy Hpre.
  - by apply elem_of_nil in Hx.
  - destruct Hpf as [Hz Hpf]. rewrite Forall_forall in Hz.
    apply elem_of_cons in Hx as [->|Hx], Hy as [->|Hy]; [done| | |by apply IH].
    + by destruct (Hz y Hy).
    + by destruct (Hz x Hx).
Qed.

Lemma branches_incomparable (str s1 s2 : cstring) (a b : ascii) :
  a ≠ b → str ++ [a] `prefix_of` s1 → str ++ [b] `prefix_of` s2 →
  ¬ s1 `prefix_of` s2.
Proof.
  intros Hab [k1 ->] [k2 ->] [k Hk]. rewrite <- !app_assoc in Hk.
  apply app_inv_head in Hk. simpl in Hk. congruence.
Qed.

Lemma code_list_prefix_free root str : prefix_free_list (code_list root str).
Proof.
  revert str; induction root as [|ch f l IHl r IHr]; intros str; [done|].
  simpl. destruct (is_null l && is_null r); [by repeat constructor|].
  apply prefix_free_list_app; [done..|].
  intros x y Hx Hy.
  apply code_list_prefix in Hx; [|by destruct str].
  apply code_list_prefix in Hy; [|by destruct str].
  split; eapply branches_incomparable; eauto; done.
Qed.

Lemma foldl_write_entry_lookup L codes c s :
  foldl write_entry codes L !! c = Some s → (c, s) ∈ L ∨ codes !! c = Some s.
Proof.
  revert codes; induction L as [|[c' s'] L IH]; intros codes Hl; [by right|].
  simpl in Hl. apply IH in Hl as [Hl|Hl]; [left; by right|].
  unfold write_entry in Hl. simpl in Hl.
  destruct (decide (c' = c)) as [->|Hne].
  - rewrite lookup_insert_eq in Hl. injection Hl as ->. left; left.
  - rewrite lookup_insert_ne in Hl by done. by right.
Qed.

Lemma foldl_write_entry_dom L codes :
  dom (foldl write_entry codes L) = list_to_set L.*1 ∪ dom codes.
Proof.
  revert codes; induction L as [|[c s] L IH]; intros codes; simpl.
  - set_solver.
  - rewrite IH. unfold write_entry. rewrite dom_insert_L. set_solver.
Qed.

(** The table of any tree: its keys are the leaf symbols, every code is
    non-empty, and no code is a prefix of the code of another symbol. *)
Lemma buildCode_table root :
  let codes := buildCode root [] ∅ in
  dom codes = list_to_set (leaves root)
  ∧ (∀ c s, codes !! c = Some s → s ≠ [])
  ∧ (∀ c1 c2 s1 s2, c1 ≠ c2 → codes !! c1 = Some s1 → codes !! c2 = Some s2 →
       ¬ s1 `prefix_of` s2).
Proof.
  intros codes. subst codes. rewrite buildCode_code_list. repeat split.
  - rewrite foldl_write_entry_dom, code_list_leaves, dom_empty_L. set_solver.
  - intros c s Hl. apply foldl_write_entry_lookup in Hl as [Hl|Hl]; [|done].
    by apply code_list_nonempty in Hl.
  - intros c1 c2 s1 s2 Hne H1 H2 Hpre.
    apply foldl_write_entry_lookup in H1 as [H1|H1]; [|done].
    apply foldl_write_entry_lookup in H2 as [H2|H2]; [|done].
    pose proof (prefix_free_list_elem _ _ _
                  (code_list_prefix_free root []) H1 H2 Hpre) as Heq.
    congruence.
Qed.

(** ** Tree construction: the queue through the loops of [main] *)

Section Construction.
Context `{StdImpl}.

Lemma pq_singleton_top_pop q n :
  pq_elems q = [n] → pq_top q = Some n ∧ pq_elems (pq_pop q) = [].
Proof.
  intros Hq. destruct (pq_top_pop_elems q) as (m & Htop & Hperm & _).
  { by rewrite Hq. }
  rewrite Hq in Hperm. apply Permutation_singleton_l in Hperm.
  injection Hperm as <- ->. done.
Qed.

Lemma pq_push_onto_empty q n : pq_elems q = [] → pq_elems (pq_push n q) = [n].
Proof.
  intros Hq. pose proof (pq_push_elems n q) as Hperm. rewrite Hq in Hperm.
  by apply Permutation_singleton_r in Hperm.
Qed.

Lemma fill_fold_elems (l : list (ascii * Z)) (q : pq) :
  pq_elems (foldl (λ q '(c, f), pq_push (node c f NULL NULL) q) q l)
  ≡ₚ (leaf_node <$> l) ++ pq_elems q.
Proof.
  revert q; induction l as [|[c f] l IH]; intros q; [done|].
  simpl. rewrite IH, pq_push_elems. unfold leaf_node at 3. simpl.
  by rewrite Permutation_middle.
Qed.

Lemma fill_queue_elems freq :
  pq_elems (fill_queue freq) ≡ₚ leaf_node <$> map_to_list freq.
Proof.
  unfold fill_queue. rewrite fill_fold_elems, pq_new_elems, app_nil_r.
  by rewrite umap_iter_perm.
Qed.

Lemma leaves_leaf_nodes (l : list (ascii * Z)) :
  (leaf_node <$> l) ≫= leaves = l.*1.
Proof.
  induction l as [|[c f] l IH]; [done|].
  by rewrite !fmap_cons, bind_cons, IH.
Qed.

Lemma fill_queue_leaves freq :
  queue_leaves (fill_queue freq) ≡ₚ (map_to_list freq).*1.
Proof.
  unfold queue_leaves. by rewrite fill_queue_elems, leaves_leaf_nodes.
Qed.

Lemma fill_queue_nonnull freq : queue_nonnull (fill_queue freq).
Proof.
  unfold queue_nonnull. rewrite fill_queue_elems.
  apply Forall_fmap, Forall_true. done.
Qed.

Lemma fill_queue_size freq : pq_size (fill_queue freq) = size freq.
Proof.
  rewrite pq_size_elems, fill_queue_elems, length_fmap.
  apply length_map_to_list.
Qed.

Lemma single_case_spec q :
  queue_nonnull q →
  ∃ q', single_case q = Some q' ∧ pq_size q' = pq_size q
        ∧ queue_leaves q' ≡ₚ queue_leaves q ∧ queue_nonnull q'.
Proof.
  intros Hnn. unfold single_case.
  destruct (decide (pq_size q = 1%nat)) as [Hsize|]; [|eauto].
  rewrite pq_size_elems in Hsize.
  destruct (pq_elems q) as [|n [|??]] eqn:Hq; try done.
  destruct (pq_singleton_top_pop q n Hq) as [-> Hpop]. simpl.
  eexists. split; [done|].
  pose proof (pq_push_onto_empty (pq_pop q) (node "000" (node_freq n) n NULL)
                Hpop) as Hpush.
  unfold queue_nonnull, queue_leaves in *.
  rewrite !pq_size_elems, Hpush, Hq. split; [done|].
  rewrite Hq in Hnn. apply Forall_cons in Hnn as [Hn _].
  destruct n as [|ch f l r]; [done|].
  split; [|by repeat constructor].
  simpl. by rewrite !app_nil_r.
Qed.

Lemma merged_leaves l r f :
  l ≠ NULL → r ≠ NULL → leaves (node "000" f l r) = leaves l ++ leaves r.
Proof. by destruct l, r. Qed.

Lemma merge_loop_spec fuel q :
  (pq_size q ≤ S fuel)%nat → queue_nonnull q →
  ∃ q', merge_loop fuel q = Some q'
        ∧ (pq_size q' ≤ 1)%nat ∧ (pq_size q = 0%nat ↔ pq_size q' = 0%nat)
        ∧ queue_leaves q' ≡ₚ queue_leaves q ∧ queue_nonnull q'.
Proof.
  revert q; induction fuel as [|fuel IH]; intros q Hsize Hnn.
  - exists q. simpl. destruct (decide (1 < pq_size q)%nat); [lia|].
    repeat split; (done || lia).
  - simpl. destruct (decide (1 < pq_size q)%nat) as [Hgt|Hle];
      [|exists q; repeat split; (done || lia)].
    rewrite pq_size_elems in Hgt, Hsize.
    destruct (pq_top_pop_elems q) as (l & -> & Hperm1 & _).
    { intros Hnil. rewrite Hnil in Hgt. simpl in Hgt. lia. }
    simpl.
    destruct (pq_top_pop_elems (pq_pop q)) as (r & -> & Hperm2 & _).
    { intros Hnil. rewrite Hperm1, Hnil in Hgt. simpl in Hgt. lia. }
    simpl.
    set (merged := node "000" (int_add (node_freq l) (node_freq r)) l r).
    pose proof (pq_push_elems merged (pq_pop (pq_pop q))) as Hperm3.
    assert (Hall : pq_elems q ≡ₚ l :: r :: pq_elems (pq_pop (pq_pop q)))
      by (by rewrite Hperm1, Hperm2).
    unfold queue_nonnull in Hnn. rewrite Hall in Hnn.
    apply Forall_cons in Hnn as [Hl Hnn]. apply Forall_cons in Hnn as [Hr Hnn].
    destruct (IH (pq_push merged (pq_pop (pq_pop q))))
      as (q' & Hloop & Hle' & Hzero & Hleaves & Hnn').
    + rewrite pq_size_elems, Hperm3. rewrite Hall in Hsize.
      simpl in *. lia.
    + unfold queue_nonnull. rewrite Hperm3. by constructor.
    + exists q'. split; [done|]. split; [done|].
      rewrite !pq_size_elems in *. rewrite Hperm3 in Hzero.
      rewrite Hall. simpl in *. split; [split; lia|]. split; [|done].
      rewrite Hleaves. unfold queue_leaves. rewrite Hperm3, Hall.
      rewrite !bind_cons. subst merged. rewrite merged_leaves by done.
      by rewrite app_assoc.
Qed.

(** For a non-empty frequency map the construction returns a tree whose
    leaves carry the symbols of the map. *)
Lemma build_tree_spec freq :
  freq ≠ ∅ →
  ∃ root, build_tree freq = Some root
          ∧ leaves root ≡ₚ (map_to_list freq).*1.
Proof.
  intros Hne. unfold build_tree.
  destruct (single_case_spec (fill_queue freq) (fill_queue_nonnull freq))
    as (q1 & -> & Hsize1 & Hleaves1 & Hnn1). simpl.
  destruct (merge_loop_spec (pq_size q1) q1)
    as (q2 & -> & Hle2 & Hzero2 & Hleaves2 & Hnn2); [lia|done|]. simpl.
  assert (Hpos : pq_size q2 ≠ 0%nat).
  { rewrite <- Hzero2, Hsize1, fill_queue_size.
    intros Hz. by apply map_size_empty_iff in Hz. }
  rewrite pq_size_elems in Hle2, Hpos.
  destruct (pq_elems q2) as [|root [|??]] eqn:Hq2; simpl in *; try lia.
  destruct (pq_singleton_top_pop q2 root Hq2) as [-> _].
  exists root. split; [done|].
  rewrite <- fill_queue_leaves, <- Hleaves1, <- Hleaves2.
  unfold queue_leaves. rewrite Hq2. simpl. by rewrite app_nil_r.
Qed.

Lemma build_codes_spec freq :
  freq ≠ ∅ →
  ∃ codes, build_codes freq = Some codes
    ∧ dom codes = dom freq
    ∧ (∀ c s, codes !! c = Some s → s ≠ [])
    ∧ (∀ c1 c2 s1 s2, c1 ≠ c2 →
         codes !! c1 = Some s1 → codes !! c2 = Some s2 →
         ¬ s1 `prefix_of` s2).
Proof.
  intros Hne. destruct (build_tree_spec freq Hne) as (root & Hroot & Hleaves).
  unfold build_codes. rewrite Hroot. simpl. eexists. split; [done|].
  destruct (buildCode_table root) as (Hdom & Hnonempty & Hpf).
  split; [|done]. rewrite Hdom, Hleaves.
  apply set_eq. intros c.
  rewrite elem_of_list_to_set, elem_of_dom, list_elem_of_fmap.
  split.
  - intros ([c' f] & -> & Hin). apply elem_of_map_to_list in Hin. eauto.
  - intros [f Hf]. exists (c, f). split; [done|].
    by apply elem_of_map_to_list.
Qed.
End Construction.

(** ** Greedy decoding with a prefix-free table *)

Lemma read_code_map_list_to_map stdin :
  read_code_map stdin = list_to_map (reverse (swap_entry <$> stdin)).
Proof.
  induction stdin as [|[charCode code] stdin IH] using rev_ind; [done|].
  rewrite read_code_map_snoc, fmap_app, reverse_app, IH. done.
Qed.

(** One code word, read from the empty candidate, emits its symbol. *)
Lemma decode_loop_word revCodes (s : cstring) (c : ascii) :
  revCodes !! s = Some c →
  (∀ p, p ≠ [] → p `prefix_of` s → p ≠ s → revCodes !! p = None) →
  ∀ s' p rest decoded, s = p ++ s' → s' ≠ [] →
    decode_loop revCodes (s' ++ rest) decoded p
    = decode_loop revCodes rest (decoded ++ [c]) [].
Proof.
  intros Hs Hproper. induction s' as [|b s' IH]; intros p rest decoded Heq Hne;
    [done|].
  simpl. destruct s' as [|b' s'].
  - rewrite <- Heq, Hs. done.
  - rewrite (Hproper (p ++ [b])).
    + apply IH; [|done]. by rewrite <- app_assoc.
    + by destruct p.
    + exists (b' :: s'). by rewrite <- app_assoc.
    + rewrite Heq. intros Habs. apply (f_equal length) in Habs.
      rewrite !length_app in Habs. simpl in Habs. lia.
Qed.

Lemma decode_loop_text revCodes (codes : gmap ascii cstring) :
  (∀ c s, codes !! c = Some s → s ≠ [] ∧ revCodes !! s = Some c) →
  (∀ s c, revCodes !! s = Some c → codes !! c = Some s) →
  (∀ c1 c2 s1 s2, c1 ≠ c2 → codes !! c1 = Some s1 → codes !! c2 = Some s2 →
     ¬ s1 `prefix_of` s2) →
  ∀ text decoded, (∀ c, c ∈ text → is_Some (codes !! c)) →
    decode_loop revCodes (text ≫= code_of codes) decoded [] = (decoded ++ text, []).
Proof.
  intros Hfwd Hbwd Hpf. induction text as [|c text IH]; intros decoded Hall.
  - simpl. by rewrite app_nil_r.
  - destruct (Hall c) as [s Hs]; [left|].
    destruct (Hfwd c s Hs) as [Hne Hrev].
    rewrite bind_cons. unfold code_of at 1. rewrite Hs. simpl.
    rewrite (decode_loop_word revCodes s c Hrev) with (p := []); [| |done..].
    + rewrite IH; [by rewrite <- app_assoc|].
      intros c' Hc'. apply Hall. by right.
    + intros p Hp Hpre Hps. destruct (revCodes !! p) as [c'|] eqn:Hp'; [|done].
      apply Hbwd in Hp'. destruct (decide (c' = c)) as [->|Hc'].
      * congruence.
      * by destruct (Hpf c' c p s Hc' Hp' Hs).
Qed.

(** ** The codec end to end *)

Section Codec.
Context `{StdImpl}.

Lemma elem_of_umap_iter {V} (m : gmap ascii V) c v :
  (c, v) ∈ umap_iter m ↔ m !! c = Some v.
Proof. by rewrite umap_iter_perm, elem_of_map_to_list. Qed.

(** The map that the decode mode reads back from the printed code map is
    the inverse of the code table. *)
Lemma read_printed_code_map (codes : gmap ascii cstring) :
  (∀ c1 c2 s, codes !! c1 = Some s → codes !! c2 = Some s → c1 = c2) →
  ∀ s c, read_code_map (print_code_map codes) !! s = Some c
         ↔ codes !! c = Some s.
Proof.
  intros Hinj s c. rewrite read_code_map_list_to_map.
  unfold print_code_map. rewrite <- list_fmap_compose.
  set (L := _ <$> umap_iter codes).
  assert (HL : L = (λ e, (e.2, e.1)) <$> umap_iter codes).
  { subst L. apply list_fmap_ext. intros _ [c' s'] _.
    unfold swap_entry. simpl. by rewrite char_of_int_of_char. }
  rewrite <- elem_of_list_to_map.
  - rewrite elem_of_reverse, HL, list_elem_of_fmap. split.
    + intros ([c' s'] & [= -> ->] & Hin). by apply elem_of_umap_iter.
    + intros Hc. exists (c, s). split; [done|]. by apply elem_of_umap_iter.
  - rewrite fmap_reverse, reverse_Permutation.
    rewrite HL, <- list_fmap_compose. apply NoDup_fmap_2_strong.
    + intros [c1 s1] [c2 s2] H1 H2. simpl. intros <-.
      apply elem_of_umap_iter in H1, H2. f_equal. eauto.
    + rewrite umap_iter_perm. apply NoDup_map_to_list.
Qed.

(** C3: for every non-empty frequency map the construction returns a code
    table, with one code per symbol of the map, in which no code is a
    prefix of the code of another symbol. *)
Theorem huffman_codes_prefix_free (freq : gmap ascii Z) :
  freq ≠ ∅ →
  ∃ codes, build_codes freq = Some codes
    ∧ dom codes = dom freq
    ∧ ∀ c1 c2 s1 s2, c1 ≠ c2 →
        codes !! c1 = Some s1 → codes !! c2 = Some s2 →
        ¬ s1 `prefix_of` s2.
Proof.
  intros Hne.
  destruct (build_codes_spec freq Hne) as (codes & Hb & Hdom & _ & Hpf).
  eauto.
Qed.

(** C1: for every non-empty text, the encode mode prints a bitstring and
    a code map, and the decode mode, given that bitstring and that code
    map, prints the original text, without warning. *)
Theorem huffman_roundtrip (prog text : cstring) (stdin : list (Z * cstring)) :
  text ≠ [] →
  ∃ encoded map,
    main [prog; lit "encode"; text] stdin
    = Some {| exit_code := 0; stdout := Some (PrintedCode encoded map);
              stderr := [] |}
    ∧ main [prog; lit "decode"; encoded] map
      = Some {| exit_code := 0; stdout := Some (PrintedText text);
                stderr := [] |}.
Proof.
  intros Htext.
  assert (Hfreq : count_freq text ≠ ∅) by by rewrite count_freq_empty_iff.
  destruct (build_codes_spec _ Hfreq) as (codes & Hb & Hdom & Hne & Hpf).
  assert (Hall : ∀ c, c ∈ text → is_Some (codes !! c)).
  { intros c Hc. apply elem_of_dom. rewrite Hdom, count_freq_dom.
    by apply elem_of_list_to_set. }
  assert (Hinj : ∀ c1 c2 s, codes !! c1 = Some s → codes !! c2 = Some s →
                            c1 = c2).
  { intros c1 c2 s H1 H2. destruct (decide (c1 = c2)) as [|Hc]; [done|].
    by destruct (Hpf c1 c2 s s Hc H1 H2). }
  pose proof (read_printed_code_map codes Hinj) as Hrev.
  exists (text ≫= code_of codes), (print_code_map codes).
  simpl. unfold encode_mode, decode_mode.
  destruct (decide (text = [])); [done|]. rewrite Hb. simpl.
  pose proof (encode_loop_closed text codes []) as Henc.
  pose proof (encode_loop_table text codes [] Hall) as Htab.
  destruct (encode_loop text codes []) as [encoded codes'].
  simpl in Henc, Htab. subst encoded codes'. split; [done|].
  destruct text as [|c text]; [done|].
  destruct (Hall c) as [s Hs]; [left|].
  destruct (decide (_ ≫= _ = [])) as [Hnil|_].
  { rewrite bind_cons in Hnil. unfold code_of at 1 in Hnil. rewrite Hs in Hnil.
    apply app_eq_nil in Hnil as [Hnil _]. simpl in Hnil.
    by destruct (Hne c s Hs). }
  destruct (decide (read_code_map _ = ∅)) as [Hempty|_].
  { apply Hrev in Hs. rewrite Hempty in Hs. by rewrite lookup_empty in Hs. }
  rewrite (decode_loop_text _ codes); [done| | |done..].
  - intros c' s' Hc'. split; [by eapply Hne|by apply Hrev].
  - intros s' c' Hc'. by apply Hrev.
Qed.
End Codec.

(** ** The single character case *)

Section SingleSymbol.
Context `{StdImpl}.

Lemma umap_iter_singleton {V} (c : ascii) (v : V) :
  umap_iter ({[c := v]} : gmap ascii V) = [(c, v)].
Proof.
  apply Permutation_singleton_r.
  by rewrite umap_iter_perm, map_to_list_singleton.
Qed.

Lemma build_codes_singleton (c : ascii) (f : Z) :
  build_codes {[c := f]} = Some {[c := lit "0"]}.
Proof.
  unfold build_codes, build_tree, fill_queue.
  rewrite umap_iter_singleton. simpl.
  pose proof (pq_push_onto_empty pq_new (node c f NULL NULL) pq_new_elems)
    as Hq0.
  set (q0 := pq_push (node c f NULL NULL) pq_new) in *.
  unfold single_case. rewrite pq_size_elems, Hq0. simpl.
  destruct (pq_singleton_top_pop q0 _ Hq0) as [-> Hpop]. simpl.
  pose proof (pq_push_onto_empty (pq_pop q0)
                (node "000" f (node c f NULL NULL) NULL) Hpop) as Hq1.
  set (q1 := pq_push _ (pq_pop q0)) in *.
  rewrite pq_size_elems, Hq1. simpl.
  rewrite pq_size_elems, Hq1. simpl.
  destruct (pq_singleton_top_pop q1 _ Hq1) as [-> _]. simpl.
  by rewrite insert_empty.
Qed.

(** C5: if the text is non-empty and all its symbols are the same symbol
    [c], the code table has the single entry [c] with code "0", and the
    encode mode prints one "0" per symbol of the text (so the bitstring is
    as long as the text) and the one-line code map. *)
Theorem single_symbol_code (text : cstring) (c : ascii) :
  text ≠ [] → (∀ x, x ∈ text → x = c) →
  build_codes (count_freq text) = Some {[c := lit "0"]}
  ∧ encode_mode text
    = Some {| exit_code := 0;
              stdout := Some (PrintedCode (replicate (length text) "0"%char)
                                          [(int_of_char c, lit "0")]);
              stderr := [] |}
  ∧ length (replicate (length text) "0"%char) = length text.
Proof.
  intros Htext Hall.
  assert (Hdom : dom (count_freq text) = {[c]}).
  { rewrite count_freq_dom. apply set_eq. intros x.
    rewrite elem_of_list_to_set, elem_of_singleton. split; [apply Hall|].
    intros ->. destruct text as [|y text]; [done|].
    rewrite <- (Hall y) by left. left. }
  apply dom_singleton_inv_L in Hdom as [f Hfreq].
  assert (Hcodes : build_codes (count_freq text) = Some {[c := lit "0"]})
    by (rewrite Hfreq; apply build_codes_singleton).
  split; [done|]. split; [|apply length_replicate].
  unfold encode_mode. destruct (decide (text = [])); [done|].
  rewrite Hcodes. simpl.
  pose proof (encode_loop_closed text {[c := lit "0"]} []) as Henc.
  pose proof (encode_loop_table text {[c := lit "0"]} []) as Htab.
  destruct (encode_loop text _ []) as [encoded codes'].
  simpl in Henc, Htab. rewrite Htab, Henc.
  - unfold print_code_map. rewrite umap_iter_singleton. simpl.
    do 4 f_equal. clear -Hall.
    induction text as [|x text IH]; [done|].
    rewrite bind_cons, IH by (intros y Hy; apply Hall; by right).
    rewrite (Hall x) by left. unfold code_of.
    by rewrite lookup_singleton_eq.
  - intros x Hx. rewrite (Hall x Hx), lookup_singleton_eq. eauto.
Qed.
End SingleSymbol.

(** ** The bit channel: slots, header, capacity and round trip *)

Module BitChannelFacts.
Import BitChannel.

Lemma odd_set_lsb c b : Z.odd (set_lsb c b) = b.
Proof.
  unfold set_lsb. rewrite <- Z.bit0_odd, Z.lor_spec, Z.land_spec.
  change (Z.testbit 254 0) with false. rewrite andb_false_r. simpl.
  by destruct b.
Qed.

(** The other seven bits of an 8-bit channel are untouched. *)
Lemma testbit_set_lsb c b i : 0 < i < 8 → 0 ≤ c < 256 →
  Z.testbit (set_lsb c b) i = Z.testbit c i.
Proof.
  intros Hi Hc. unfold set_lsb. rewrite Z.lor_spec, Z.land_spec.
  assert (Hb : Z.testbit (Z.b2z b) i = false).
  { destruct b; simpl; [|apply Z.testbit_0_l].
    destruct i; try lia. done. }
  rewrite Hb, orb_false_r.
  assert (Hmask : Z.testbit 254 i = true).
  { assert (Hcases : i = 1 ∨ i = 2 ∨ i = 3 ∨ i = 4 ∨ i = 5 ∨ i = 6 ∨ i = 7)
      by lia.
    by destruct Hcases as [->|[->|[->|[->|[->|[->| ->]]]]]]. }
  by rewrite Hmask, andb_true_r.
Qed.

Lemma channel_set_channel_eq k b p : Z.odd (channel k (set_channel k b p)) = b.
Proof. destruct k as [|[|k]]; simpl; apply odd_set_lsb. Qed.

Lemma channel_set_channel_ne k k' b p :
  (k < 3)%nat → (k' < 3)%nat → k ≠ k' →
  channel k' (set_channel k b p) = channel k' p.
Proof.
  intros Hk Hk' Hne.
  destruct k as [|[|[|k]]], k' as [|[|[|k']]]; simpl; (done || lia).
Qed.

Lemma length_write_slot buf i b : length (write_slot buf i b) = length buf.
Proof. apply length_alter. Qed.

Lemma length_write_bits bits buf i :
  length (write_bits buf i bits) = length buf.
Proof.
  revert buf i; induction bits as [|b bits IH]; intros buf i; [done|].
  simpl. by rewrite IH, length_write_slot.
Qed.

Lemma read_write_slot_eq buf i b :
  (i < 3 * length buf)%nat → read_slot (write_slot buf i b) i = b.
Proof.
  intros Hi. unfold read_slot, write_slot. rewrite list_lookup_alter_eq.
  destruct (lookup_lt_is_Some_2 buf (i / 3)%nat) as [p ->].
  { apply Nat.Div0.div_lt_upper_bound. lia. }
  simpl. apply channel_set_channel_eq.
Qed.

Lemma read_write_slot_ne buf i j b :
  i ≠ j → read_slot (write_slot buf j b) i = read_slot buf i.
Proof.
  intros Hne. unfold read_slot, write_slot.
  destruct (decide (i / 3 = j / 3)%nat) as [Hdiv|Hdiv].
  - rewrite Hdiv, list_lookup_alter_eq. destruct (buf !! (j / 3)%nat); [|done].
    cbn [fmap option_fmap option_map].
    rewrite channel_set_channel_ne; [done|..].
    + by apply Nat.mod_upper_bound.
    + by apply Nat.mod_upper_bound.
    + intros Hmod. apply Hne.
      rewrite (Nat.div_mod_eq i 3), (Nat.div_mod_eq j 3). lia.
  - by rewrite list_lookup_alter_ne.
Qed.

Lemma read_slot_write_bits_before bits buf start i :
  (i < start)%nat →
  read_slot (write_bits buf start bits) i = read_slot buf i.
Proof.
  revert buf start; induction bits as [|b bits IH]; intros buf start Hi;
    [done|].
  simpl. rewrite IH by lia. apply read_write_slot_ne. lia.
Qed.

Lemma read_bits_write_bits bits buf start :
  (start + length bits ≤ 3 * length buf)%nat →
  read_bits (write_bits buf start bits) start (length bits) = bits.
Proof.
  revert buf start; induction bits as [|b bits IH]; intros buf start Hfit;
    [done|].
  simpl in *. unfold read_bits in *. simpl. f_equal.
  - rewrite read_slot_write_bits_before by lia.
    apply read_write_slot_eq. lia.
  - apply IH. rewrite length_write_slot. lia.
Qed.

Lemma read_bits_app buf start n m :
  read_bits buf start (n + m)
  = read_bits buf start n ++ read_bits buf (start + n) m.
Proof. unfold read_bits. by rewrite seq_app, fmap_app. Qed.

Lemma length_read_bits buf start n : length (read_bits buf start n) = n.
Proof. unfold read_bits. by rewrite length_fmap, length_seq. Qed.

Lemma of_bits_snoc bits b : of_bits (bits ++ [b]) = 2 * of_bits bits + Z.b2z b.
Proof. unfold of_bits. by rewrite foldl_snoc. Qed.

Lemma length_to_bits k n : length (to_bits k n) = k.
Proof.
  revert n; induction k as [|k IH]; intros n; [done|].
  simpl. rewrite length_app, IH. simpl. lia.
Qed.

Lemma of_bits_to_bits k n : of_bits (to_bits k n) = n mod 2 ^ Z.of_nat k.
Proof.
  revert n; induction k as [|k IH]; intros n.
  - simpl. by rewrite Z.mod_1_r.
  - cbn [to_bits]. rewrite of_bits_snoc, IH.
    rewrite Nat2Z.inj_succ, Z.pow_succ_r by lia.
    rewrite Z.rem_mul_r by lia. rewrite Zmod_odd.
    destruct (Z.odd n); simpl; lia.
Qed.

Lemma of_bits_bound bits : 0 ≤ of_bits bits < 2 ^ len bits.
Proof.
  unfold len. induction bits as [|b bits IH] using rev_ind; [done|].
  rewrite of_bits_snoc, length_app, Nat2Z.inj_add, Z.pow_add_r by lia.
  change (2 ^ Z.of_nat (length [b])) with 2. destruct b; simpl; lia.
Qed.

Lemma header_length n : length (header n) = 24%nat.
Proof. apply length_to_bits. Qed.

Lemma of_bits_header n : 0 ≤ n < 2 ^ 24 → of_bits (header n) = n.
Proof.
  intros Hn. unfold header. rewrite of_bits_to_bits.
  change (Z.of_nat 24) with 24. by apply Z.mod_small.
Qed.

(** Whatever [extract] returns is shorter than 2^24 bits: the header has
    24 bits. *)
Lemma extract_length buf bits : extract buf = inr bits → len bits < 2 ^ 24.
Proof.
  unfold extract. destruct (_ <? 24); [done|].
  destruct (_ <? _); [done|]. intros [= <-].
  unfold len at 1. rewrite length_read_bits.
  pose proof (of_bits_bound (read_bits buf 0 24)) as Hb.
  unfold len in Hb. rewrite length_read_bits in Hb.
  change (Z.of_nat 24) with 24 in Hb. lia.
Qed.

Lemma embed_fits buf bits :
  24 + len bits ≤ 3 * len buf →
  embed buf bits = (write_bits buf 0 (header (len bits) ++ bits), None).
Proof.
  intros Hfit. unfold embed.
  by destruct (Z.ltb_spec (3 * len buf) (24 + len bits)); [lia|].
Qed.

Lemma embed_overflow buf bits :
  24 + len bits > 3 * len buf →
  embed buf bits
  = (buf, Some (CapacityError (24 + len bits) (3 * len buf))).
Proof.
  intros Hfit. unfold embed.
  by destruct (Z.ltb_spec (3 * len buf) (24 + len bits)); [|lia].
Qed.

Lemma extract_embed buf bits :
  len bits < 2 ^ 24 → 24 + len bits ≤ 3 * len buf →
  extract (embed buf bits).1 = inr bits.
Proof.
  intros Hlen Hfit. rewrite embed_fits by done. cbn [fst].
  set (buf' := write_bits buf 0 (header (len bits) ++ bits)).
  assert (Hread : read_bits buf' 0 (24 + length bits)
                  = header (len bits) ++ bits).
  { pose proof (read_bits_write_bits (header (len bits) ++ bits) buf 0)
      as Hrw.
    rewrite length_app, header_length in Hrw. apply Hrw.
    unfold len in Hfit. lia. }
  rewrite read_bits_app in Hread.
  apply app_inj_1 in Hread as [Hhead Hpayload];
    [|by rewrite length_read_bits, header_length].
  change (0 + 24)%nat with 24%nat in Hpayload.
  assert (Hlenbuf : len buf' = len buf)
    by (unfold len; subst buf'; by rewrite length_write_bits).
  unfold extract. rewrite Hhead, Hlenbuf.
  destruct (Z.ltb_spec (3 * len buf) 24); [unfold len in *; lia|].
  rewrite of_bits_header by (unfold len in *; lia).
  destruct (Z.ltb_spec (3 * len buf - 24) (len bits)); [lia|].
  unfold len at 1. by rewrite Nat2Z.id, Hpayload.
Qed.

(** C2, as stated, fails: a bitstring of 2^24 bits fits a buffer of
    5592414 pixels together with the header, and is embedded without
    error, but what [extract] returns is never that bitstring: the 24-bit
    header cannot hold its length. *)
Lemma roundtrip_fails_beyond_header_width :
  let bits := replicate (Z.to_nat (2 ^ 24)) false in
  let buf := replicate (Z.to_nat 5592414) (Pixel 0 0 0) in
  24 + len bits ≤ 3 * len buf
  ∧ (embed buf bits).2 = None
  ∧ extract (embed buf bits).1 ≠ inr bits.
Proof.
  intros bits buf.
  assert (Hbits : len bits = 2 ^ 24)
    by (unfold len, bits; rewrite length_replicate, Z2Nat.id; lia).
  assert (Hbuf : len buf = 5592414)
    by (unfold len, buf; rewrite length_replicate, Z2Nat.id; lia).
  assert (Hfit : 24 + len bits ≤ 3 * len buf) by (rewrite Hbits, Hbuf; lia).
  split; [done|]. split.
  - by rewrite embed_fits.
  - intros Hex. apply extract_length in Hex. lia.
Qed.

(** C2, amended: for every pixel buffer and every bitstring that fits the
    buffer together with the 24-bit header and is shorter than 2^24 bits,
    [embed] succeeds and [extract] on the resulting buffer returns exactly
    the bitstring; in particular for the payload lengths 0, 1, 23, 24 and
    1,000,000. *)
Theorem embed_extract_roundtrip (buf : list pixel) (bits : list bool) :
  24 + len bits ≤ 3 * len buf →
  (len bits < 2 ^ 24 →
     (embed buf bits).2 = None ∧ extract (embed buf bits).1 = inr bits)
  ∧ (len bits ∈ [0; 1; 23; 24; 1000000] →
     (embed buf bits).2 = None ∧ extract (embed buf bits).1 = inr bits).
Proof.
  intros Hfit.
  assert (Hmain : len bits < 2 ^ 24 →
            (embed buf bits).2 = None ∧ extract (embed buf bits).1 = inr bits).
  { intros Hlen. split; [by rewrite embed_fits|by apply extract_embed]. }
  split; [done|]. intros Hin. apply Hmain.
  repeat (apply elem_of_cons in Hin as [->|Hin]; [done|]).
  by apply elem_of_nil in Hin.
Qed.

Lemma embed_extract_roundtrip_witness :
  let buf := replicate 9 (Pixel 255 16 7) in
  let bits := [true; false; true] in
  extract (embed buf bits).1 = inr bits.
Proof.
  intros buf bits.
  refine (proj2 (proj1 (embed_extract_roundtrip buf bits _) _)).
  - unfold len. simpl. lia.
  - unfold len. simpl. lia.
Defined.

(** C4, as stated, fails: for L = 1 the buffer of ceil((24+1)/3) = 9
    pixels has 27 slots, so a bitstring of length L+1 = 2 is embedded too,
    without a capacity error. *)
Lemma capacity_boundary_not_tight :
  let buf := replicate 9 (Pixel 0 0 0) in
  len buf = (24 + len [true] + 2) / 3
  ∧ (embed buf [true]).2 = None
  ∧ (embed buf [true; true]).2 = None.
Proof. by vm_compute. Qed.

(** C4, amended: [embed] fails with a capacity error if and only if
    24 + len(bitstring) > 3 * pixelCount, and then the buffer is returned
    unchanged (the check precedes every write); a bitstring of length L
    is embedded into a buffer of exactly ceil((24+L)/3) pixels, and a
    bitstring of length L+1 is refused by that buffer exactly when 24+L is
    a multiple of 3 (otherwise the buffer has a spare slot). *)
Theorem embed_capacity (buf : list pixel) (bits : list bool) :
  ((∃ required available,
      (embed buf bits).2 = Some (CapacityError required available))
   ↔ 24 + len bits > 3 * len buf)
  ∧ (24 + len bits > 3 * len buf →
     embed buf bits
     = (buf, Some (CapacityError (24 + len bits) (3 * len buf))))
  ∧ (len buf = (24 + len bits + 2) / 3 →
     (embed buf bits).2 = None
     ∧ ∀ longer : list bool, len longer = len bits + 1 →
         ((embed buf longer).2
          = Some (CapacityError (24 + len longer) (3 * len buf))
          ↔ (24 + len bits) mod 3 = 0)).
Proof.
  split; [|split].
  - split.
    + intros (required & available & Herr).
      destruct (Z_le_gt_dec (24 + len bits) (3 * len buf)) as [Hfit|]; [|done].
      by rewrite embed_fits in Herr.
    + intros Hover. rewrite embed_overflow by done. eauto.
  - apply embed_overflow.
  - intros Hceil. split.
    + rewrite embed_fits; [done|]. revert Hceil.
      generalize (len buf), (len bits). intros P L ->.
      Z.div_mod_to_equations. lia.
    + intros longer Hlonger. split.
      * intros Herr.
        destruct (Z_le_gt_dec (24 + len longer) (3 * len buf)) as [Hfit|Hov].
        { by rewrite embed_fits in Herr. }
        revert Hceil Hlonger Hov.
        generalize (len buf), (len bits), (len longer). intros P L L' -> ->.
        Z.div_mod_to_equations. lia.
      * intros Hmod. rewrite embed_overflow; [done|].
        revert Hceil Hlonger Hmod.
        generalize (len buf), (len bits), (len longer). intros P L L' -> ->.
        Z.div_mod_to_equations. lia.
Qed.

Lemma embed_capacity_witness :
  let buf := replicate 9 (Pixel 0 0 0) in
  (embed buf [true; false; true]).2 = None
  ∧ embed buf [true; false; true; true]
    = (buf, Some (CapacityError 28 27)).
Proof.
  intros buf.
  destruct (embed_capacity buf [true; false; true]) as (_ & _ & Hb).
  destruct (embed_capacity buf [true; false; true; true]) as (_ & Hover & _).
  split.
  - apply Hb. reflexivity.
  - apply Hover. unfold len. simpl. lia.
Defined.
End BitChannelFacts.

(** ** Instances on the reference implementation *)

Lemma huffman_codes_prefix_free_witness :
  ∃ codes, @build_codes ListImpl.impl abracadabra_freq = Some codes
    ∧ dom codes = dom abracadabra_freq
    ∧ ∀ c1 c2 s1 s2, c1 ≠ c2 →
        codes !! c1 = Some s1 → codes !! c2 = Some s2 →
        ¬ s1 `prefix_of` s2.
Proof.
  apply (@huffman_codes_prefix_free ListImpl.impl abracadabra_freq).
  apply insert_non_empty.
Defined.

Lemma huffman_roundtrip_witness :
  ∃ encoded map,
    @main ListImpl.impl [lit "huffman"; lit "encode"; lit "abracadabra"] []
    = Some {| exit_code := 0; stdout := Some (PrintedCode encoded map);
              stderr := [] |}
    ∧ @main ListImpl.impl [lit "huffman"; lit "decode"; encoded] map
      = Some {| exit_code := 0;
                stdout := Some (PrintedText (lit "abracadabra"));
                stderr := [] |}.
Proof.
  apply (@huffman_roundtrip ListImpl.impl (lit "huffman") (lit "abracadabra") []).
  simpl. discriminate.
Defined.

Lemma single_symbol_code_witness :
  @encode_mode ListImpl.impl (lit "aaaa")
  = Some {| exit_code := 0;
            stdout := Some (PrintedCode (lit "0000") [(97, lit "0")]);
            stderr := [] |}.
Proof.
  refine (proj1 (proj2
            (@single_symbol_code ListImpl.impl (lit "aaaa") "a"%char _ _))).
  - simpl. discriminate.
  - intros x Hx. simpl in Hx.
    repeat (apply elem_of_cons in Hx as [->|Hx]; [reflexivity|]).
    by apply elem_of_nil in Hx.
Defined.

Lemma encode_loop_total_witness :
  encode_loop (lit "ba") {["a"%char := lit "0"]} []
  = encode_loop (lit "a") (<["b"%char := []]> {["a"%char := lit "0"]}) [].
Proof.
  apply (proj2 (encode_loop_total [] {["a"%char := lit "0"]})).
  by vm_compute.
Defined.

Lemma encode_empty_text_rejected_witness :
  @main ListImpl.impl [lit "huffman"; lit "encode"; []] []
  = Some {| exit_code := 1; stdout := None;
            stderr := ["Error: Empty text"%string] |}.
Proof.
  exact (proj1 (proj2
           (@encode_empty_text_rejected ListImpl.impl (lit "huffman") [] []))).
Defined.

Lemma decode_empty_bits_rejected_witness :
  @main ListImpl.impl [lit "huffman"; lit "decode"; []] [(97, lit "0")]
  = Some {| exit_code := 1; stdout := None;
            stderr := ["Error: Empty bits"%string] |}.
Proof.
  exact (proj2 (@decode_empty_bits_rejected ListImpl.impl (lit "huffman") []
                  [(97, lit "0")])).
Defined.

(** The scenario of the specification on the reference implementation:
    "abracadabra" is encoded in 23 bits, and decoded back. *)
Example abracadabra_encode :
  @encode_mode ListImpl.impl (lit "abracadabra")
  = Some {| exit_code := 0;
            stdout := Some (PrintedCode (lit "01111001101011000111100")
                        [(99, lit "1101"); (97, lit "0"); (114, lit "10");
                         (98, lit "111"); (100, lit "1100")]);
            stderr := [] |}.
Proof. by vm_compute. Qed.

Example abracadabra_decode :
  decode_mode (lit "01111001101011000111100")
    [(99, lit "1101"); (97, lit "0"); (114, lit "10");
     (98, lit "111"); (100, lit "1100")]
  = Some {| exit_code := 0; stdout := Some (PrintedText (lit "abracadabra"));
            stderr := [] |}.
Proof. by vm_compute. Qed.

Example abracadabra_embed_extract :
  let bits := (λ c, bool_decide (c = "1"%char)) <$> lit "01111001101011000111100" in
  let buf := replicate 64 (BitChannel.Pixel 200 100 51) in
  BitChannel.extract (BitChannel.embed buf bits).1 = inr bits
  ∧ (BitChannel.embed buf bits).1 !! 0%nat = Some (BitChannel.Pixel 200 100 50).
Proof. by vm_compute. Qed.

(** * Further properties of huffman.cpp *)

(** ** The shape of the tree that [main] builds *)

Section Shape.
Context `{StdImpl}.

Lemma merge_loop_done fuel q : ¬ (1 < pq_size q)%nat → merge_loop fuel q = Some q.
Proof. intros Hle. destruct fuel; simpl; by destruct (decide _). Qed.

(** One iteration of the merge loop, with what the queue contract says
    about the two nodes popped. *)
Lemma merge_loop_step fuel q :
  (1 < pq_size q)%nat →
  ∃ l r rest,
    pq_elems q ≡ₚ l :: r :: rest
    ∧ node_freq l ≤ node_freq r
    ∧ pq_elems (pq_push (node "000" (int_add (node_freq l) (node_freq r)) l r)
                        (pq_pop (pq_pop q)))
      ≡ₚ node "000" (int_add (node_freq l) (node_freq r)) l r :: rest
    ∧ merge_loop (S fuel) q
      = merge_loop fuel
          (pq_push (node "000" (int_add (node_freq l) (node_freq r)) l r)
                   (pq_pop (pq_pop q))).
Proof.
  intros Hgt. rewrite pq_size_elems in Hgt.
  destruct (pq_top_pop_elems q) as (l & Htop1 & Hperm1 & Hmin).
  { intros Hnil. rewrite Hnil in Hgt. simpl in Hgt. lia. }
  destruct (pq_top_pop_elems (pq_pop q)) as (r & Htop2 & Hperm2 & _).
  { intros Hnil. rewrite Hperm1, Hnil in Hgt. simpl in Hgt. lia. }
  exists l, r, (pq_elems (pq_pop (pq_pop q))). split; [|split; [|split]].
  - by rewrite Hperm1, Hperm2.
  - rewrite Forall_forall in Hmin.
    assert (Hr : r ∈ pq_elems q) by (rewrite Hperm1, Hperm2; right; left).
    apply Hmin in Hr. unfold cmp in Hr. lia.
  - apply pq_push_elems.
  - simpl. destruct (decide (1 < pq_size q)%nat) as [_|Hn];
      [|rewrite pq_size_elems in Hn; lia].
    rewrite Htop1. simpl. rewrite Htop2. done.
Qed.

Lemma merge_loop_built freq fuel q q' :
  Forall (built freq) (pq_elems q) → merge_loop fuel q = Some q' →
  Forall (built freq) (pq_elems q').
Proof.
  revert q; induction fuel as [|fuel IH]; intros q Hq Hloop.
  - simpl in Hloop. destruct (decide _); [done|]. by injection Hloop as <-.
  - destruct (decide (1 < pq_size q)%nat) as [Hgt|Hle].
    + destruct (merge_loop_step fuel q Hgt)
        as (l & r & rest & Hperm & Hfreq & Hpush & Hstep).
      rewrite Hstep in Hloop. apply IH in Hloop; [done|].
      rewrite Hpush. rewrite Hperm in Hq.
      apply Forall_cons in Hq as [Hl Hq]. apply Forall_cons in Hq as [Hr Hq].
      constructor; [by constructor|done].
  + rewrite merge_loop_done in Hloop by done. by injection Hloop as <-.
Qed.

(** After at least one iteration, what is left in the queue was merged. *)
Lemma merge_loop_merged freq fuel q q' :
  Forall (built freq) (pq_elems q) →
  (1 < pq_size q)%nat → merge_loop fuel q = Some q' → (pq_size q' ≤ 1)%nat →
  Forall (λ n, ∃ l r, n = node "000" (int_add (node_freq l) (node_freq r)) l r
                      ∧ built freq l ∧ built freq r)
         (pq_elems q').
Proof.
  revert q; induction fuel as [|fuel IH]; intros q Hq Hgt Hloop Hle.
  - simpl in Hloop. by destruct (decide _).
  - destruct (merge_loop_step fuel q Hgt)
      as (l & r & rest & Hperm & Hfreq & Hpush & Hstep).
    rewrite Hstep in Hloop. rewrite Hperm in Hq.
    apply Forall_cons in Hq as [Hl Hq]. apply Forall_cons in Hq as [Hr Hq].
    set (q1 := pq_push _ (pq_pop (pq_pop q))) in *.
    destruct (decide (1 < pq_size q1)%nat) as [Hgt1|Hle1].
    { eapply (IH q1); [|done..]. rewrite Hpush.
      constructor; [by constructor|done]. }
    rewrite merge_loop_done in Hloop by done. injection Hloop as <-.
    rewrite pq_size_elems, Hpush in Hle1. destruct rest; [|simpl in Hle1; lia].
    apply Permutation_singleton_r in Hpush. rewrite Hpush.
    constructor; [eauto|constructor].
Qed.

Lemma fill_queue_built freq : Forall (built freq) (pq_elems (fill_queue freq)).
Proof.
  rewrite fill_queue_elems. apply Forall_fmap, Forall_forall.
  intros [c f] Hin. apply elem_of_map_to_list in Hin. by constructor.
Qed.

Lemma build_tree_singleton (c : ascii) (f : Z) :
  build_tree {[c := f]} = Some (node "000" f (node c f NULL NULL) NULL).
Proof.
  unfold build_tree, fill_queue. rewrite umap_iter_singleton. simpl.
  pose proof (pq_push_onto_empty pq_new (node c f NULL NULL) pq_new_elems)
    as Hq0.
  set (q0 := pq_push (node c f NULL NULL) pq_new) in *.
  unfold single_case. rewrite pq_size_elems, Hq0. simpl.
  destruct (pq_singleton_top_pop q0 _ Hq0) as [-> Hpop]. simpl.
  pose proof (pq_push_onto_empty (pq_pop q0)
                (node "000" f (node c f NULL NULL) NULL) Hpop) as Hq1.
  set (q1 := pq_push _ (pq_pop q0)) in *.
  rewrite merge_loop_done by (rewrite pq_size_elems, Hq1; simpl; lia).
  simpl. by destruct (pq_singleton_top_pop q1 _ Hq1) as [-> _].
Qed.

Lemma size_one_singleton (freq : gmap ascii Z) :
  size freq = 1%nat → ∃ c f, freq = {[c := f]}.
Proof.
  intros Hsize. rewrite <- length_map_to_list in Hsize.
  destruct (map_to_list freq) as [|[c f] [|??]] eqn:Hl; try done.
  exists c, f. rewrite <- (list_to_map_to_list freq), Hl. simpl.
  by rewrite insert_empty.
Qed.

(** The two shapes of the tree: for a single symbol, a root whose only
    child is the leaf; otherwise a node merged from two built trees. *)
Lemma build_tree_cases freq :
  freq ≠ ∅ →
  ∃ root, build_tree freq = Some root
    ∧ leaves root ≡ₚ (map_to_list freq).*1
    ∧ ((∃ c f, freq = {[c := f]}
               ∧ root = node "000" f (node c f NULL NULL) NULL)
       ∨ ((2 ≤ size freq)%nat ∧ built freq root
          ∧ ∃ l r, root = node "000" (int_add (node_freq l) (node_freq r)) l r
                   ∧ built freq l ∧ built freq r)).
Proof.
  intros Hne. destruct (build_tree_spec freq Hne) as (root & Hroot & Hleaves).
  exists root. split; [done|]. split; [done|].
  destruct (decide (size freq = 1%nat)) as [Hone|Hmany].
  - left. destruct (size_one_singleton freq Hone) as (c & f & ->).
    exists c, f. split; [done|].
    rewrite build_tree_singleton in Hroot. by injection Hroot as <-.
  - right. assert (Hsize : (2 ≤ size freq)%nat).
    { apply map_size_non_empty_iff in Hne. lia. }
    split; [done|]. unfold build_tree, single_case in Hroot.
    assert (Hgt : (1 < pq_size (fill_queue freq))%nat)
      by (rewrite fill_queue_size; lia).
    destruct (decide (pq_size (fill_queue freq) = 1%nat)); [lia|].
    simpl in Hroot.
    destruct (merge_loop_spec (pq_size (fill_queue freq)) (fill_queue freq))
      as (q2 & Hloop & Hle & Hzero & _); [lia|apply fill_queue_nonnull|].
    rewrite Hloop in Hroot. simpl in Hroot.
    pose proof (merge_loop_built freq _ _ _ (fill_queue_built freq) Hloop)
      as Hbuilt.
    pose proof (merge_loop_merged freq _ _ _ (fill_queue_built freq)
                  Hgt Hloop Hle) as Hmerged.
    rewrite pq_size_elems in Hle. rewrite (pq_size_elems q2) in Hzero.
    destruct (pq_elems q2) as [|top [|??]] eqn:Hq2; simpl in *; try lia.
    destruct (pq_singleton_top_pop q2 top Hq2) as [Htop _].
    rewrite Htop in Hroot. injection Hroot as <-.
    apply Forall_cons in Hbuilt as [Hbuilt _].
    by apply Forall_cons in Hmerged as [Hmerged _].
Qed.
End Shape.

(** ** Facts about built trees *)

Lemma built_not_null freq t : built freq t → t ≠ NULL.
Proof. by destruct 1. Qed.

Lemma built_leaves_nonempty freq t : built freq t → leaves t ≠ [].
Proof.
  induction 1 as [c f Hc|l r Hl IHl Hr IHr Hle]; [done|].
  rewrite merged_leaves by by eapply built_not_null.
  intros Hnil. by apply app_eq_nil in Hnil as [Hnil _].
Qed.

Lemma built_internal_nodes freq t :
  built freq t → S (internal_nodes t) = length (leaves t).
Proof.
  induction 1 as [c f Hc|l r Hl IHl Hr IHr Hle]; [done|].
  rewrite merged_leaves by by eapply built_not_null.
  apply built_not_null in Hl, Hr. rewrite length_app, <- IHl, <- IHr.
  destruct l, r; try done. simpl. lia.
Qed.

Lemma built_delete_count freq t :
  built freq t → length (deleteTree t) = (2 * length (leaves t) - 1)%nat.
Proof.
  induction 1 as [c f Hc|l r Hl IHl Hr IHr Hle]; [done|].
  rewrite merged_leaves by by eapply built_not_null.
  apply built_leaves_nonempty in Hl as Hl', Hr as Hr'.
  cbn [deleteTree]. rewrite !length_app, IHl, IHr. simpl.
  destruct (leaves l), (leaves r); simpl in *; try done. lia.
Qed.

Lemma built_left_lighter freq t : built freq t → left_lighter t.
Proof.
  induction 1 as [c f Hc|l r Hl IHl Hr IHr Hle]; simpl.
  - repeat split; done.
  - repeat split; done.
Qed.

(** Sums of integers do not depend on the order. *)
Lemma Zsum_Permutation (l1 l2 : list Z) :
  l1 ≡ₚ l2 → foldr Z.add 0 l1 = foldr Z.add 0 l2.
Proof. induction 1; simpl; lia. Qed.

Lemma Zsum_app (l1 l2 : list Z) :
  foldr Z.add 0 (l1 ++ l2) = foldr Z.add 0 l1 + foldr Z.add 0 l2.
Proof. induction l1 as [|x l1 IH]; simpl; lia. Qed.

Lemma int_wrap_eq_iff a b : int_wrap a = int_wrap b ↔ a mod 2 ^ 32 = b mod 2 ^ 32.
Proof.
  unfold int_wrap. split; intros Heq.
  - assert (Hm : (a + 2 ^ 31) mod 2 ^ 32 = (b + 2 ^ 31) mod 2 ^ 32) by lia.
    apply (f_equal (λ x, (x - 2 ^ 31) mod 2 ^ 32)) in Hm. simpl in Hm.
    rewrite !Zminus_mod_idemp_l in Hm.
    by replace (a + 2 ^ 31 - 2 ^ 31) with a in Hm by lia;
       replace (b + 2 ^ 31 - 2 ^ 31) with b in Hm by lia.
  - f_equal. by rewrite <- (Zplus_mod_idemp_l a), <- (Zplus_mod_idemp_l b), Heq.
Qed.

Lemma int_wrap_idemp a : int_wrap (int_wrap a) = int_wrap a.
Proof.
  apply int_wrap_eq_iff. unfold int_wrap.
  rewrite <- Zminus_mod_idemp_l, Z.mod_mod by lia.
  rewrite Zminus_mod_idemp_l. f_equal. lia.
Qed.

Lemma int_wrap_small a : - 2 ^ 31 ≤ a < 2 ^ 31 → int_wrap a = a.
Proof. intros Ha. unfold int_wrap. rewrite Z.mod_small; lia. Qed.

Lemma int_wrap_add a b a' b' :
  int_wrap a = int_wrap a' → int_wrap b = int_wrap b' →
  int_wrap (a + b) = int_wrap (a' + b').
Proof.
  rewrite !int_wrap_eq_iff. intros Ha Hb.
  by rewrite Zplus_mod, Ha, Hb, <- Zplus_mod.
Qed.

(** The frequency stored in a built tree is the sum of the frequencies at
    its leaves, up to the wrap-around of [int]. *)
Lemma built_weight freq t :
  built freq t → int_wrap (node_freq t) = int_wrap (weight t).
Proof.
  induction 1 as [c f Hc|l r Hl IHl Hr IHr Hle]; [done|].
  apply built_not_null in Hl, Hr.
  replace (weight (node "000" _ l r)) with (weight l + weight r)
    by by destruct l, r.
  simpl. unfold int_add. rewrite int_wrap_idemp. by apply int_wrap_add.
Qed.

Lemma built_weight_leaves freq t :
  built freq t →
  weight t = foldr Z.add 0 ((λ c, default 0 (freq !! c)) <$> leaves t).
Proof.
  induction 1 as [c f Hc|l r Hl IHl Hr IHr Hle].
  - simpl. rewrite Hc. simpl. lia.
  - rewrite merged_leaves by by eapply built_not_null.
    apply built_not_null in Hl, Hr.
    replace (weight (node "000" _ l r)) with (weight l + weight r)
      by by destruct l, r.
    by rewrite fmap_app, Zsum_app, IHl, IHr.
Qed.

Lemma total_keys (freq : gmap ascii Z) :
  total freq
  = foldr Z.add 0 ((λ c, default 0 (freq !! c)) <$> (map_to_list freq).*1).
Proof.
  unfold total. f_equal. rewrite <- list_fmap_compose.
  apply list_fmap_ext. intros i [c f] Hin. simpl.
  apply list_elem_of_lookup_2, elem_of_map_to_list in Hin. by rewrite Hin.
Qed.

(** ** The frequency table counts occurrences *)

Lemma occurrences_cons_eq c text : occurrences c (c :: text) = 1 + occurrences c text.
Proof. unfold occurrences. rewrite filter_cons_True by done. simpl. lia. Qed.

Lemma occurrences_cons_ne c x text :
  x ≠ c → occurrences c (x :: text) = occurrences c text.
Proof. intros Hne. unfold occurrences. by rewrite filter_cons_False. Qed.

Lemma occurrences_nonneg c text : 0 ≤ occurrences c text ≤ Z.of_nat (length text).
Proof.
  unfold occurrences. pose proof (length_filter (λ x, x = c) text). lia.
Qed.

Lemma occurrences_zero_iff c text : occurrences c text = 0 ↔ c ∉ text.
Proof.
  induction text as [|x text IH].
  - split; [intros _; apply not_elem_of_nil|done].
  - rewrite not_elem_of_cons. destruct (decide (x = c)) as [->|Hne].
    + rewrite occurrences_cons_eq. pose proof (occurrences_nonneg c text).
      split; [lia|]. by intros [? _].
    + rewrite occurrences_cons_ne by done. rewrite IH. split; [|by intros [_ ?]].
      intros ?. split; [congruence|done].
Qed.

Lemma count_step_lookup freq x c :
  count_step freq x !! c
  = if decide (x = c) then Some (int_wrap (default 0 (freq !! c) + 1))
    else freq !! c.
Proof.
  unfold count_step, umap_index. destruct (decide (x = c)) as [->|Hne].
  - destruct (freq !! c) as [f|] eqn:Hc; by rewrite lookup_insert_eq.
  - destruct (freq !! x) as [f|] eqn:Hx; by rewrite !lookup_insert_ne.
Qed.

Lemma count_fold_lookup text freq c :
  foldl count_step freq text !! c
  = if decide (occurrences c text = 0) then freq !! c
    else Some (int_wrap (default 0 (freq !! c) + occurrences c text)).
Proof.
  revert freq; induction text as [|x text IH]; intros freq; [done|].
  simpl. rewrite IH, count_step_lookup.
  pose proof (occurrences_nonneg c text) as Hocc.
  destruct (decide (x = c)) as [->|Hne].
  - rewrite occurrences_cons_eq.
    destruct (decide (1 + occurrences c text = 0)); [lia|].
    destruct (decide (occurrences c text = 0)) as [->|_].
    + by rewrite Z.add_0_r.
    + f_equal. cbn [default]. rewrite Z.add_assoc.
      apply int_wrap_add; [apply int_wrap_idemp|done].
  - by rewrite occurrences_cons_ne.
Qed.

Lemma count_freq_lookup (text : cstring) (c : ascii) :
  count_freq text !! c
  = if decide (c ∈ text) then Some (int_wrap (occurrences c text)) else None.
Proof.
  unfold count_freq. rewrite count_fold_lookup, lookup_empty. simpl.
  destruct (decide (occurrences c text = 0)) as [Hz|Hnz].
  - apply occurrences_zero_iff in Hz. by destruct (decide (c ∈ text)).
  - rewrite occurrences_zero_iff in Hnz. destruct (decide (c ∈ text)); [done|].
    by destruct Hnz.
Qed.

(** X3: the frequency table maps every symbol of the text to the number
    of its occurrences (wrapped to [int]) and has no other entry; for a
    text shorter than 2^31 characters the count is exact. *)
Theorem count_freq_counts (text : cstring) (c : ascii) :
  count_freq text !! c
  = (if decide (c ∈ text) then Some (int_wrap (occurrences c text)) else None)
  ∧ (Z.of_nat (length text) < 2 ^ 31 →
     int_wrap (occurrences c text) = occurrences c text).
Proof.
  split; [apply count_freq_lookup|].
  intros Hlen. pose proof (occurrences_nonneg c text).
  apply int_wrap_small. lia.
Qed.

Lemma count_freq_counts_witness :
  count_freq (lit "abracadabra") !! "a"%char = Some 5.
Proof.
  destruct (count_freq_counts (lit "abracadabra") "a"%char) as [Hl Hexact].
  rewrite Hl, Hexact by (simpl; lia).
  rewrite decide_True by (simpl; left). reflexivity.
Defined.

Lemma total_insert_None (freq : gmap ascii Z) c v :
  freq !! c = None → total (<[c := v]> freq) = v + total freq.
Proof.
  intros Hc. unfold total.
  rewrite (Zsum_Permutation _ (((c, v) :: map_to_list freq).*2)); [done|].
  by rewrite map_to_list_insert.
Qed.

Lemma total_insert_Some (freq : gmap ascii Z) c f v :
  freq !! c = Some f → total (<[c := v]> freq) = v + total freq - f.
Proof.
  intros Hc. rewrite <- (insert_delete_eq freq).
  rewrite total_insert_None by apply lookup_delete_eq.
  rewrite <- (insert_delete_id freq c f) at 2 by done.
  rewrite total_insert_None by apply lookup_delete_eq. lia.
Qed.

Lemma total_count_step freq x :
  int_wrap (total (count_step freq x)) = int_wrap (total freq + 1).
Proof.
  unfold count_step, umap_index. destruct (freq !! x) as [f|] eqn:Hx.
  - rewrite (total_insert_Some _ _ f) by done. unfold int_add.
    replace (int_wrap (f + 1) + total freq - f)
      with (int_wrap (f + 1) + (total freq - f)) by lia.
    replace (total freq + 1) with ((f + 1) + (total freq - f)) by lia.
    apply int_wrap_add; [apply int_wrap_idemp|done].
  - rewrite insert_insert_eq, total_insert_None by done. unfold int_add.
    rewrite Z.add_comm. apply int_wrap_add; [done|apply int_wrap_idemp].
Qed.

Lemma total_count_fold text freq :
  int_wrap (total (foldl count_step freq text))
  = int_wrap (total freq + Z.of_nat (length text)).
Proof.
  revert freq; induction text as [|x text IH]; intros freq.
  - simpl. f_equal. lia.
  - cbn [foldl length]. rewrite IH, Nat2Z.inj_succ.
    replace (total freq + Z.succ (Z.of_nat (length text)))
      with (total freq + 1 + Z.of_nat (length text)) by lia.
    apply int_wrap_add; [apply total_count_step|done].
Qed.

Lemma total_count_freq text :
  int_wrap (total (count_freq text)) = int_wrap (Z.of_nat (length text)).
Proof. unfold count_freq. by rewrite total_count_fold. Qed.

(** ** Node counts, frequencies and the order of the children *)

Section TreeFacts.
Context `{StdImpl}.

(** X4: the tree built from k >= 1 symbols has k leaves; it has k-1 nodes
    with children when k >= 2 and one (the synthesized root) when k = 1;
    [deleteTree] deletes that many nodes, the root last. *)
Theorem tree_node_count (freq : gmap ascii Z) :
  freq ≠ ∅ →
  ∃ root, build_tree freq = Some root
    ∧ length (leaves root) = size freq
    ∧ internal_nodes root = Nat.max 1 (size freq - 1)
    ∧ length (deleteTree root) = (size freq + Nat.max 1 (size freq - 1))%nat
    ∧ last (deleteTree root) = Some root.
Proof.
  intros Hne.
  destruct (build_tree_cases freq Hne) as (root & Hroot & Hleaves & Hcases).
  exists root. split; [done|].
  assert (Hlen : length (leaves root) = size freq).
  { by rewrite Hleaves, length_fmap, length_map_to_list. }
  split; [done|].
  destruct Hcases
    as [(c & f & -> & ->)|(Hsize & Hbuilt & l & r & Hform & _)].
  - by rewrite map_size_singleton.
  - pose proof (built_internal_nodes _ _ Hbuilt) as Hint.
    pose proof (built_delete_count _ _ Hbuilt) as Hdel.
    rewrite Hlen in Hint, Hdel. split; [lia|]. split; [lia|].
    rewrite Hform. cbn [deleteTree]. by rewrite app_assoc, last_snoc.
Qed.

(** X5: in the tree built, every node with two children has the child
    popped first, which is no more frequent than the other, on its left
    (the '0' branch). *)
Theorem tree_left_lighter (freq : gmap ascii Z) :
  freq ≠ ∅ → ∃ root, build_tree freq = Some root ∧ left_lighter root.
Proof.
  intros Hne.
  destruct (build_tree_cases freq Hne) as (root & Hroot & _ & Hcases).
  exists root. split; [done|].
  destruct Hcases as [(c & f & -> & ->)|(_ & Hbuilt & _)].
  - simpl. repeat split; done.
  - by eapply built_left_lighter.
Qed.

(** X6: the frequency stored at the root of the tree built from a text is
    the length of the text, wrapped to [int]; it is the length itself for a
    text shorter than 2^31 characters. *)
Theorem root_frequency_is_text_length (text : cstring) :
  text ≠ [] →
  ∃ root, build_tree (count_freq text) = Some root
    ∧ node_freq root = int_wrap (Z.of_nat (length text))
    ∧ (Z.of_nat (length text) < 2 ^ 31 →
       node_freq root = Z.of_nat (length text)).
Proof.
  intros Htext.
  assert (Hfreq : count_freq text ≠ ∅) by by rewrite count_freq_empty_iff.
  destruct (build_tree_cases _ Hfreq) as (root & Hroot & Hleaves & Hcases).
  exists root. split; [done|].
  assert (Hmain : node_freq root = int_wrap (Z.of_nat (length text))).
  { rewrite <- total_count_freq.
    destruct Hcases
      as [(c & f & Hsingle & ->)|(_ & Hbuilt & l & r & Hform & _)].
    - simpl. rewrite Hsingle. unfold total. rewrite map_to_list_singleton.
      simpl. rewrite Z.add_0_r.
      pose proof (count_freq_lookup text c) as Hc.
      rewrite Hsingle, lookup_singleton_eq in Hc.
      destruct (decide (c ∈ text)); [|done]. injection Hc as ->.
      by rewrite int_wrap_idemp.
    - rewrite total_keys, <- (Zsum_Permutation _ _
                                (fmap_Permutation _ _ _ Hleaves)).
      rewrite <- (built_weight_leaves _ _ Hbuilt).
      rewrite <- (built_weight _ _ Hbuilt), Hform. simpl.
      unfold int_add. by rewrite int_wrap_idemp. }
  split; [done|]. intros Hlen. rewrite Hmain. apply int_wrap_small. lia.
Qed.

End TreeFacts.

Lemma tree_node_count_witness :
  ∃ root, @build_tree ListImpl.impl abracadabra_freq = Some root
    ∧ length (leaves root) = 5%nat ∧ internal_nodes root = 4%nat
    ∧ length (deleteTree root) = 9%nat.
Proof.
  destruct (@tree_node_count ListImpl.impl abracadabra_freq)
    as (root & Hroot & Hl & Hi & Hd & _); [apply insert_non_empty|].
  exists root. split; [exact Hroot|]. split; [exact Hl|]. split; [exact Hi|].
  exact Hd.
Defined.

Lemma tree_left_lighter_witness :
  ∃ root, @build_tree ListImpl.impl abracadabra_freq = Some root
          ∧ left_lighter root.
Proof.
  apply (@tree_left_lighter ListImpl.impl abracadabra_freq).
  apply insert_non_empty.
Defined.

Lemma root_frequency_is_text_length_witness :
  ∃ root, @build_tree ListImpl.impl (count_freq (lit "abracadabra")) = Some root
          ∧ node_freq root = 11.
Proof.
  destruct (@root_frequency_is_text_length ListImpl.impl (lit "abracadabra"))
    as (root & Hroot & _ & Hexact); [simpl; discriminate|].
  exists root. split; [exact Hroot|]. apply Hexact. simpl. lia.
Defined.

(** ** Codes are root-to-leaf paths over '0' and '1' *)

Lemma is_null_true n : is_null n = true → n = NULL.
Proof. by destruct n. Qed.

Lemma lit_0_bits : Forall is_bit (lit "0").
Proof. constructor; [by left|constructor]. Qed.

Lemma lit_1_bits : Forall is_bit (lit "1").
Proof. constructor; [by right|constructor]. Qed.

Lemma code_list_bits root str e :
  Forall is_bit str → e ∈ code_list root str → Forall is_bit e.2.
Proof.
  revert str; induction root as [|ch f l IHl r IHr]; intros str Hstr He.
  - by apply elem_of_nil in He.
  - simpl in He. destruct (is_null l && is_null r).
    + apply list_elem_of_singleton in He as ->. simpl.
      destruct str; [apply lit_0_bits|done].
    + apply elem_of_app in He as [He|He].
      * apply (IHl (str ++ lit "0")); [|done].
        apply Forall_app. split; [done|apply lit_0_bits].
      * apply (IHr (str ++ lit "1")); [|done].
        apply Forall_app. split; [done|apply lit_1_bits].
Qed.

Lemma code_list_descend root str c s :
  str ≠ [] ∨ is_leaf root = false →
  (c, s) ∈ code_list root str →
  ∃ p f, s = str ++ p ∧ descend root p = Some (node c f NULL NULL).
Proof.
  revert str; induction root as [|ch f l IHl r IHr]; intros str Hok He.
  - by apply elem_of_nil in He.
  - simpl in He, Hok. destruct (is_null l && is_null r) eqn:Hleaf.
    + apply list_elem_of_singleton in He. injection He as -> ->.
      apply andb_true_iff in Hleaf as [Hl Hr].
      apply is_null_true in Hl as ->, Hr as ->.
      exists [], f. destruct str; [by destruct Hok|]. by rewrite app_nil_r.
    + apply elem_of_app in He as [He|He].
      * destruct (IHl (str ++ lit "0")) as (p & f' & -> & Hp);
          [left; by destruct str|done|].
        exists ("0"%char :: p), f'. split; [by rewrite <- app_assoc|done].
      * destruct (IHr (str ++ lit "1")) as (p & f' & -> & Hp);
          [left; by destruct str|done|].
        exists ("1"%char :: p), f'. split; [by rewrite <- app_assoc|done].
Qed.

Lemma descend_code_list root str p c f :
  str ≠ [] ∨ is_leaf root = false →
  descend root p = Some (node c f NULL NULL) →
  (c, str ++ p) ∈ code_list root str.
Proof.
  revert root str; induction p as [|b p IH]; intros root str Hok Hd.
  - simpl in Hd. injection Hd as ->. simpl. rewrite app_nil_r.
    destruct str; [by destruct Hok|]. left.
  - destruct root as [|ch f' l r]; [done|]. simpl in Hd, Hok |- *.
    destruct (is_null l && is_null r) eqn:Hleaf.
    { apply andb_true_iff in Hleaf as [Hl Hr].
      apply is_null_true in Hl as ->, Hr as ->.
      destruct (decide (b = "0"%char)); [by destruct p|].
      destruct (decide (b = "1"%char)); [by destruct p|done]. }
    destruct (decide (b = "0"%char)) as [->|].
    + apply elem_of_app. left.
      replace (str ++ "0"%char :: p) with ((str ++ lit "0") ++ p)
        by by rewrite <- app_assoc.
      apply IH; [left; by destruct str|done].
    + destruct (decide (b = "1"%char)) as [->|]; [|done].
      apply elem_of_app. right.
      replace (str ++ "1"%char :: p) with ((str ++ lit "1") ++ p)
        by by rewrite <- app_assoc.
      apply IH; [left; by destruct str|done].
Qed.

Lemma foldl_write_entry_frame L codes c :
  c ∉ L.*1 → foldl write_entry codes L !! c = codes !! c.
Proof.
  revert codes; induction L as [|[c' s'] L IH]; intros codes Hc; [done|].
  simpl in *. apply not_elem_of_cons in Hc as [Hne Hc].
  rewrite IH by done. unfold write_entry. simpl. by rewrite lookup_insert_ne.
Qed.

Lemma foldl_write_entry_NoDup L codes c s :
  NoDup L.*1 → (c, s) ∈ L → foldl write_entry codes L !! c = Some s.
Proof.
  revert codes; induction L as [|[c' s'] L IH]; intros codes Hnd Hin.
  - by apply elem_of_nil in Hin.
  - simpl in Hnd. apply NoDup_cons in Hnd as [Hc' Hnd].
    apply elem_of_cons in Hin as [[= -> ->]|Hin]; simpl.
    + rewrite foldl_write_entry_frame by done. unfold write_entry. simpl.
      by rewrite lookup_insert_eq.
    + by apply IH.
Qed.

(** The code length in a built tree: at most the number of leaves. *)
Lemma built_code_length freq t str e :
  built freq t → e ∈ code_list t str →
  (length e.2 + 1 ≤ Nat.max 1 (length str) + length (leaves t))%nat.
Proof.
  intros Hb. revert str e.
  induction Hb as [c f Hc|l r Hl IHl Hr IHr Hle]; intros str e He.
  - simpl in He. apply list_elem_of_singleton in He as ->. simpl.
    destruct str; simpl; lia.
  - pose proof (built_leaves_nonempty _ _ Hl) as Hnl.
    pose proof (built_leaves_nonempty _ _ Hr) as Hnr.
    rewrite merged_leaves by by eapply built_not_null.
    apply built_not_null in Hl, Hr.
    replace (code_list (node "000" _ l r) str)
      with (code_list l (str ++ lit "0") ++ code_list r (str ++ lit "1")) in He
      by by destruct l, r.
    rewrite length_app.
    destruct (leaves l), (leaves r); try done. simpl in *.
    apply elem_of_app in He as [He|He]; [apply IHl in He|apply IHr in He];
      rewrite length_app in He; simpl in He; lia.
Qed.

Section CodeFacts.
Context `{StdImpl}.

Lemma build_tree_root_not_leaf freq root :
  freq ≠ ∅ → build_tree freq = Some root → is_leaf root = false.
Proof.
  intros Hne Hroot.
  destruct (build_tree_cases freq Hne) as (root' & Hroot' & _ & Hcases).
  rewrite Hroot in Hroot'. injection Hroot' as <-.
  destruct Hcases as [(c & f & _ & ->)|(_ & _ & l & r & -> & Hl & _)]; [done|].
  apply built_not_null in Hl. by destruct l.
Qed.

Lemma build_tree_leaves_NoDup freq root :
  freq ≠ ∅ → build_tree freq = Some root → NoDup (leaves root).
Proof.
  intros Hne Hroot.
  destruct (build_tree_spec freq Hne) as (root' & Hroot' & Hleaves).
  rewrite Hroot in Hroot'. injection Hroot' as <-.
  rewrite Hleaves. apply NoDup_fst_map_to_list.
Qed.

Lemma build_codes_entries freq root c s :
  freq ≠ ∅ → build_tree freq = Some root →
  buildCode root [] ∅ !! c = Some s ↔ (c, s) ∈ code_list root [].
Proof.
  intros Hne Hroot. rewrite buildCode_code_list. split.
  - intros Hl. by apply foldl_write_entry_lookup in Hl as [Hl|Hl].
  - apply foldl_write_entry_NoDup. rewrite code_list_leaves.
    by eapply build_tree_leaves_NoDup.
Qed.

Lemma build_codes_descend freq root c s :
  freq ≠ ∅ → build_tree freq = Some root →
  buildCode root [] ∅ !! c = Some s
  ↔ ∃ f, descend root s = Some (node c f NULL NULL).
Proof.
  intros Hne Hroot.
  pose proof (build_tree_root_not_leaf freq root Hne Hroot) as Hnl.
  rewrite (build_codes_entries freq root c s Hne Hroot). split.
  - intros Hin. apply code_list_descend in Hin as (p & f & -> & Hp); eauto.
  - intros [f Hd]. apply (descend_code_list root [] s c f); auto.
Qed.

(** X7: the code of a symbol spells the path from the root of the tree to
    the leaf of the symbol, '0' for a left edge and '1' for a right edge:
    the table maps [c] to [s] exactly when following [s] from the root
    ends at a leaf that carries [c]. *)
Theorem codes_are_paths (freq : gmap ascii Z) :
  freq ≠ ∅ →
  ∃ root codes,
    build_tree freq = Some root ∧ build_codes freq = Some codes
    ∧ ∀ c s, codes !! c = Some s
             ↔ ∃ f, descend root s = Some (node c f NULL NULL).
Proof.
  intros Hne. destruct (build_tree_spec freq Hne) as (root & Hroot & _).
  exists root, (buildCode root [] ∅). split; [done|].
  split; [unfold build_codes; by rewrite Hroot|].
  intros c s. by apply (build_codes_descend freq).
Qed.

Lemma codes_length_bound freq root c s :
  freq ≠ ∅ → build_tree freq = Some root → (c, s) ∈ code_list root [] →
  (1 ≤ length s ≤ Nat.max 1 (size freq - 1))%nat.
Proof.
  intros Hne Hroot Hl.
  destruct (build_tree_cases freq Hne) as (root' & Hroot' & Hleaves & Hcases).
  rewrite Hroot in Hroot'. injection Hroot' as <-.
  pose proof (code_list_nonempty root [] (c, s) Hl) as Hnonempty.
  simpl in Hnonempty. split; [destruct s; simpl; [done|lia]|].
  assert (Hlen : length (leaves root) = size freq)
    by by rewrite Hleaves, length_fmap, length_map_to_list.
  destruct Hcases
    as [(c' & f & -> & ->)|(Hsize & _ & l & r & -> & Hbl & Hbr)].
  - simpl in Hl. apply list_elem_of_singleton in Hl. injection Hl as -> ->.
    rewrite map_size_singleton. simpl. lia.
  - pose proof (built_leaves_nonempty _ _ Hbl) as Hnl.
    pose proof (built_leaves_nonempty _ _ Hbr) as Hnr.
    rewrite merged_leaves, length_app in Hlen by by eapply built_not_null.
    replace (code_list (node "000" _ l r) [])
      with (code_list l (lit "0") ++ code_list r (lit "1")) in Hl
      by (apply built_not_null in Hbl, Hbr; by destruct l, r).
    apply elem_of_app in Hl as [Hl|Hl].
    + pose proof (built_code_length freq l (lit "0") (c, s) Hbl Hl) as Hb.
      destruct (leaves l), (leaves r); simpl in *; try done; lia.
    + pose proof (built_code_length freq r (lit "1") (c, s) Hbr Hl) as Hb.
      destruct (leaves l), (leaves r); simpl in *; try done; lia.
Qed.

(** X8: every code of the table is a non-empty string over '0' and '1',
    of length at most k - 1 for k >= 2 symbols, and of length 1 for a
    single symbol. *)
Theorem codes_alphabet_and_length (freq : gmap ascii Z) :
  freq ≠ ∅ →
  ∃ codes, build_codes freq = Some codes
    ∧ ∀ c s, codes !! c = Some s →
        Forall is_bit s ∧ (1 ≤ length s ≤ Nat.max 1 (size freq - 1))%nat.
Proof.
  intros Hne. destruct (build_tree_spec freq Hne) as (root & Hroot & _).
  exists (buildCode root [] ∅). split; [unfold build_codes; by rewrite Hroot|].
  intros c s Hl. apply (build_codes_entries freq root c s Hne Hroot) in Hl.
  split; [by apply (code_list_bits root [] (c, s))|].
  by eapply codes_length_bound.
Qed.
End CodeFacts.

Lemma codes_are_paths_witness :
  ∃ root codes,
    @build_tree ListImpl.impl abracadabra_freq = Some root
    ∧ @build_codes ListImpl.impl abracadabra_freq = Some codes
    ∧ ∀ c s, codes !! c = Some s
             ↔ ∃ f, descend root s = Some (node c f NULL NULL).
Proof.
  apply (@codes_are_paths ListImpl.impl abracadabra_freq).
  apply insert_non_empty.
Defined.

Lemma codes_alphabet_and_length_witness :
  ∃ codes, @build_codes ListImpl.impl abracadabra_freq = Some codes
    ∧ ∀ c s, codes !! c = Some s →
        Forall is_bit s
        ∧ (1 ≤ length s ≤ Nat.max 1 (size abracadabra_freq - 1))%nat.
Proof.
  apply (@codes_alphabet_and_length ListImpl.impl abracadabra_freq).
  apply insert_non_empty.
Defined.

(** ** What the encode mode prints *)

Lemma int_of_char_range c : -128 ≤ int_of_char c ≤ 127.
Proof. destruct c as [[] [] [] [] [] [] [] []]; vm_compute; split; discriminate. Qed.

Lemma int_of_char_inj c1 c2 : int_of_char c1 = int_of_char c2 → c1 = c2.
Proof.
  intros Heq. by rewrite <- (char_of_int_of_char c1), Heq, char_of_int_of_char.
Qed.

Lemma length_bind_bounds (f : ascii → cstring) (text : cstring) (a b : nat) :
  (∀ c, c ∈ text → (a ≤ length (f c) ≤ b)%nat) →
  (a * length text ≤ length (text ≫= f) ≤ b * length text)%nat.
Proof.
  induction text as [|c text IH]; intros Hall; [simpl; lia|].
  rewrite bind_cons, length_app. simpl.
  destruct (Hall c) as [Ha Hb]; [left|].
  destruct IH as [IHa IHb]; [intros c' Hc'; apply Hall; by right|]. lia.
Qed.

Section EncodeOutput.
Context `{StdImpl}.

(** The encode mode on a non-empty text: the tree, the table and the two
    parts of the output. *)
Lemma encode_mode_ok (text : cstring) :
  text ≠ [] →
  ∃ root, build_tree (count_freq text) = Some root
    ∧ dom (buildCode root [] ∅) = list_to_set text
    ∧ encode_mode text
      = Some {| exit_code := 0;
                stdout := Some (PrintedCode
                            (text ≫= code_of (buildCode root [] ∅))
                            (print_code_map (buildCode root [] ∅)));
                stderr := [] |}.
Proof.
  intros Htext.
  assert (Hfreq : count_freq text ≠ ∅) by by rewrite count_freq_empty_iff.
  destruct (build_tree_spec _ Hfreq) as (root & Hroot & Hleaves).
  exists root. split; [done|].
  assert (Hdom : dom (buildCode root [] ∅) = list_to_set text).
  { destruct (build_codes_spec _ Hfreq) as (codes & Hb & Hdom & _).
    unfold build_codes in Hb. rewrite Hroot in Hb. injection Hb as <-.
    by rewrite Hdom, count_freq_dom. }
  split; [done|]. unfold encode_mode, build_codes.
  destruct (decide (text = [])); [done|]. rewrite Hroot. simpl.
  pose proof (encode_loop_closed text (buildCode root [] ∅) []) as Henc.
  pose proof (encode_loop_table text (buildCode root [] ∅) []) as Htab.
  destruct (encode_loop text _ []) as [encoded codes'].
  simpl in Henc, Htab. rewrite Henc, Htab; [done|].
  intros c Hc. apply elem_of_dom. rewrite Hdom. by apply elem_of_list_to_set.
Qed.

(** X9: the bitstring printed by the encode mode is a string over '0' and
    '1'; it has at least one bit per character of the text and, for k >= 2
    distinct symbols, at most k - 1 bits per character. *)
Theorem encoded_bits_and_length (prog text : cstring) (stdin : list (Z * cstring)) :
  text ≠ [] →
  ∃ encoded map,
    main [prog; lit "encode"; text] stdin
    = Some {| exit_code := 0; stdout := Some (PrintedCode encoded map);
              stderr := [] |}
    ∧ Forall is_bit encoded
    ∧ (length text ≤ length encoded
       ≤ Nat.max 1 (size (list_to_set text : gset ascii) - 1) * length text)%nat.
Proof.
  intros Htext. destruct (encode_mode_ok text Htext) as (root & Hroot & Hdom & Hrun).
  assert (Hfreq : count_freq text ≠ ∅) by by rewrite count_freq_empty_iff.
  eexists _, _. split; [exact Hrun|].
  assert (Hcodes : ∀ c, c ∈ text →
            Forall is_bit (code_of (buildCode root [] ∅) c)
            ∧ (1 ≤ length (code_of (buildCode root [] ∅) c)
               ≤ Nat.max 1 (size (list_to_set text : gset ascii) - 1))%nat).
  { intros c Hc. unfold code_of.
    assert (Hin : c ∈ dom (buildCode root [] ∅))
      by (rewrite Hdom; by apply elem_of_list_to_set).
    apply elem_of_dom in Hin as [s Hs]. rewrite Hs. simpl.
    apply (build_codes_entries _ root c s Hfreq Hroot) in Hs as He.
    split; [by apply (code_list_bits root [] (c, s))|].
    destruct (codes_length_bound (count_freq text) root c s Hfreq Hroot He)
      as [Hlo Hhi].
    by rewrite <- count_freq_dom, size_dom. }
  split.
  - apply Forall_bind, Forall_forall. intros c Hc. by apply Hcodes.
  - pose proof (length_bind_bounds (code_of (buildCode root [] ∅)) text 1
                  (Nat.max 1 (size (list_to_set text : gset ascii) - 1))) as Hb.
    destruct Hb as [Hlo Hhi]; [intros c Hc; by apply Hcodes|]. lia.
Qed.
End EncodeOutput.

Section CodeMapOutput.
Context `{StdImpl}.

Lemma elem_of_print_code_map (codes : gmap ascii cstring) z s :
  (z, s) ∈ print_code_map codes ↔ ∃ c, z = int_of_char c ∧ codes !! c = Some s.
Proof.
  unfold print_code_map. rewrite list_elem_of_fmap. split.
  - intros ([c s'] & [= -> ->] & Hin). exists c. split; [done|].
    by apply elem_of_umap_iter.
  - intros (c & -> & Hc). exists (c, s). split; [done|].
    by apply elem_of_umap_iter.
Qed.

Lemma print_code_map_fst (codes : gmap ascii cstring) :
  (print_code_map codes).*1 = int_of_char <$> (umap_iter codes).*1.
Proof.
  unfold print_code_map. rewrite <- !list_fmap_compose.
  apply list_fmap_ext. by intros i [c s] _.
Qed.

Lemma print_code_map_snd (codes : gmap ascii cstring) :
  (print_code_map codes).*2 = (umap_iter codes).*2.
Proof.
  unfold print_code_map. rewrite <- !list_fmap_compose.
  apply list_fmap_ext. by intros i [c s] _.
Qed.

(** X10: the code map printed by the encode mode has one line per distinct
    symbol of the text: the character codes are pairwise distinct, lie in
    -128..127 and are exactly those of the symbols of the text; the codes
    are pairwise distinct, non-empty strings over '0' and '1'. *)
Theorem printed_code_map_lines (prog text : cstring) (stdin : list (Z * cstring)) :
  text ≠ [] →
  ∃ encoded map,
    main [prog; lit "encode"; text] stdin
    = Some {| exit_code := 0; stdout := Some (PrintedCode encoded map);
              stderr := [] |}
    ∧ NoDup map.*1 ∧ NoDup map.*2
    ∧ length map = size (list_to_set text : gset ascii)
    ∧ (∀ z, z ∈ map.*1 ↔ ∃ c, c ∈ text ∧ z = int_of_char c)
    ∧ Forall (λ e, -128 ≤ e.1 ≤ 127 ∧ e.2 ≠ [] ∧ Forall is_bit e.2) map.
Proof.
  intros Htext.
  destruct (encode_mode_ok text Htext) as (root & Hroot & Hdom & Hrun).
  assert (Hfreq : count_freq text ≠ ∅) by by rewrite count_freq_empty_iff.
  set (codes := buildCode root [] ∅) in *.
  destruct (buildCode_table root) as (_ & Hnonempty & Hpf). fold codes in Hnonempty, Hpf.
  assert (Hkeys : NoDup (umap_iter codes).*1)
    by (rewrite umap_iter_perm; apply NoDup_fst_map_to_list).
  eexists _, _. split; [exact Hrun|]. repeat split.
  - rewrite print_code_map_fst. apply NoDup_fmap_2_strong; [|done].
    intros c1 c2 _ _. apply int_of_char_inj.
  - rewrite print_code_map_snd. apply NoDup_fmap_2_strong.
    + intros [c1 s1] [c2 s2] H1 H2. simpl. intros <-.
      apply elem_of_umap_iter in H1, H2. f_equal.
      destruct (decide (c1 = c2)) as [|Hc]; [done|].
      by destruct (Hpf c1 c2 s1 s1 Hc H1 H2).
    + rewrite umap_iter_perm. apply NoDup_map_to_list.
  - unfold print_code_map.
    rewrite length_fmap, umap_iter_perm, length_map_to_list.
    by rewrite <- Hdom, size_dom.
  - intros Hz. apply list_elem_of_fmap in Hz as ([z' s] & -> & Hin).
    apply elem_of_print_code_map in Hin as (c & -> & Hc).
    exists c. split; [|done].
    assert (Hin : c ∈ (list_to_set text : gset ascii))
      by (rewrite <- Hdom; apply elem_of_dom; eauto).
    by apply elem_of_list_to_set in Hin.
  - intros (c & Hc & ->).
    assert (Hin : c ∈ dom codes) by (rewrite Hdom; by apply elem_of_list_to_set).
    apply elem_of_dom in Hin as [s Hs]. apply list_elem_of_fmap.
    exists (int_of_char c, s). split; [done|].
    apply elem_of_print_code_map. eauto.
  - apply Forall_forall. intros [z s] Hin.
    apply elem_of_print_code_map in Hin as (c & -> & Hc). simpl.
    split; [apply int_of_char_range|]. split; [by eapply Hnonempty|].
    apply (build_codes_entries _ root c s Hfreq Hroot) in Hc.
    by apply (code_list_bits root [] (c, s)).
Qed.
End CodeMapOutput.

Lemma encoded_bits_and_length_witness :
  ∃ encoded map,
    @main ListImpl.impl [lit "huffman"; lit "encode"; lit "abracadabra"] []
    = Some {| exit_code := 0; stdout := Some (PrintedCode encoded map);
              stderr := [] |}
    ∧ Forall is_bit encoded
    ∧ (11 ≤ length encoded ≤ 4 * 11)%nat.
Proof.
  apply (@encoded_bits_and_length ListImpl.impl (lit "huffman")
           (lit "abracadabra") []).
  simpl. discriminate.
Defined.

Lemma printed_code_map_lines_witness :
  ∃ encoded map,
    @main ListImpl.impl [lit "huffman"; lit "encode"; lit "abracadabra"] []
    = Some {| exit_code := 0; stdout := Some (PrintedCode encoded map);
              stderr := [] |}
    ∧ NoDup map.*1 ∧ NoDup map.*2
    ∧ length map = size (list_to_set (lit "abracadabra") : gset ascii)
    ∧ (∀ z, z ∈ map.*1 ↔ ∃ c, c ∈ lit "abracadabra" ∧ z = int_of_char c)
    ∧ Forall (λ e, -128 ≤ e.1 ≤ 127 ∧ e.2 ≠ [] ∧ Forall is_bit e.2) map.
Proof.
  apply (@printed_code_map_lines ListImpl.impl (lit "huffman")
           (lit "abracadabra") []).
  simpl. discriminate.
Defined.

(** ** The decode loop on arbitrary tables *)



Lemma prefix_snoc_inv {A} (p l : list A) (x : A) :
  p `prefix_of` l ++ [x] → p = l ++ [x] ∨ p `prefix_of` l.
Proof.
  intros [k Hk]. destruct k as [|y k _] using rev_ind.
  - left. by rewrite app_nil_r in Hk.
  - right. rewrite app_assoc in Hk. apply app_inj_tail in Hk as [-> _].
    by exists k.
Qed.

Lemma decode_loop_parse_from revCodes bits decoded current :
  unmatched revCodes current →
  ∃ words emitted,
    (decode_loop revCodes bits decoded current).1 = decoded ++ emitted
    ∧ current ++ bits
      = mjoin words ++ (decode_loop revCodes bits decoded current).2
    ∧ Forall2 (greedy_word revCodes) words emitted
    ∧ unmatched revCodes (decode_loop revCodes bits decoded current).2.
Proof.
  revert decoded current; induction bits as [|b bits IH];
    intros decoded current Hcur.
  - exists [], []. simpl. rewrite !app_nil_r. repeat split; [constructor|done].
  - simpl. destruct (revCodes !! (current ++ [b])) as [ch|] eqn:Hb.
    + destruct (IH (decoded ++ [ch]) []) as (words & emitted & Hd & Hbits & Hw & Hu).
      { intros p Hp Hpre. apply prefix_nil_inv in Hpre. by destruct Hp. }
      exists ((current ++ [b]) :: words), (ch :: emitted).
      split; [by rewrite Hd, <- app_assoc|]. split; [|split; [|done]].
      * simpl in Hbits |- *. by rewrite <- !app_assoc, <- Hbits.
      * constructor; [|done]. split; [by destruct current|]. split; [done|].
        intros p Hp Hpre Hne. apply prefix_snoc_inv in Hpre as [->|Hpre];
          [done|by apply Hcur].
    + destruct (IH decoded (current ++ [b])) as (words & emitted & Hd & Hbits & Hw & Hu).
      { intros p Hp Hpre. apply prefix_snoc_inv in Hpre as [->|Hpre];
          [done|by apply Hcur]. }
      exists words, emitted. split; [done|]. split; [|done].
      by rewrite <- Hbits, <- app_assoc.
Qed.

Lemma greedy_words_length revCodes words emitted :
  Forall2 (greedy_word revCodes) words emitted →
  (length emitted ≤ length (mjoin words))%nat.
Proof.
  induction 1 as [|w ch words emitted [Hw _] _ IH]; [done|].
  simpl. rewrite length_app. destruct w; [done|]. simpl. lia.
Qed.

(** X12: the decode loop parses the bitstring greedily: the bits are a
    concatenation of words of the table, each the shortest non-empty
    prefix of what remained that is in the table, followed by the final
    candidate, no non-empty prefix of which is in the table; the decoded
    text consists of the symbols of these words, in order, and so has at
    most as many symbols as there are bits. *)
Theorem decode_loop_parse (revCodes : gmap cstring ascii) (bits : cstring) :
  ∃ words,
    bits = mjoin words ++ (decode_loop revCodes bits [] []).2
    ∧ Forall2 (greedy_word revCodes) words (decode_loop revCodes bits [] []).1
    ∧ unmatched revCodes (decode_loop revCodes bits [] []).2
    ∧ (length (decode_loop revCodes bits [] []).1 ≤ length bits)%nat.
Proof.
  destruct (decode_loop_parse_from revCodes bits [] [])
    as (words & emitted & Hd & Hbits & Hw & Hu).
  { intros p Hp Hpre. apply prefix_nil_inv in Hpre. by destruct Hp. }
  simpl in Hd, Hbits. exists words. rewrite Hd. repeat split; try done.
  apply (f_equal length) in Hbits. rewrite length_app in Hbits.
  pose proof (greedy_words_length _ _ _ Hw). lia.
Qed.

(** X13: when several lines on standard input carry the same code, the
    last one wins: the symbol that [revCodes] gives for a code is the
    character of the last line with that code, and there is no entry for a
    code that is on no line. *)
Theorem read_code_map_last_wins (stdin : list (Z * cstring)) (code : cstring) :
  read_code_map stdin !! code
  = (λ e, char_of_int e.1) <$> last (filter (λ e, e.2 = code) stdin).
Proof.
  induction stdin as [|[charCode code'] stdin IH] using rev_ind; [done|].
  rewrite read_code_map_snoc, filter_app.
  destruct (decide (code' = code)) as [->|Hne].
  - rewrite lookup_insert_eq, filter_cons_True by done.
    by rewrite filter_nil, last_snoc.
  - rewrite lookup_insert_ne, filter_cons_False by done.
    by rewrite filter_nil, app_nil_r.
Qed.

(** X14: the casts between [char] and [int] used for the code map:
    [(int)c] lies in -128..127, [(char)(int)c] is [c], [(int)(char)z] is
    [z] for [z] in -128..127, and [(char)] only depends on its argument
    modulo 256. *)
Theorem char_int_casts :
  (∀ c, -128 ≤ int_of_char c ≤ 127 ∧ char_of_int (int_of_char c) = c)
  ∧ (∀ z, -128 ≤ z ≤ 127 → int_of_char (char_of_int z) = z)
  ∧ (∀ z k, char_of_int (z + 256 * k) = char_of_int z).
Proof.
  split; [|split].
  - intros c. split; [apply int_of_char_range|apply char_of_int_of_char].
  - intros z Hz. unfold int_of_char, char_of_int.
    rewrite N_ascii_embedding.
    + rewrite Z2N.id by (apply Z.mod_pos_bound; lia).
      destruct (Z.ltb_spec (z mod 256) 128) as [Hlt|Hge];
        Z.div_mod_to_equations; lia.
    + pose proof (Z.mod_pos_bound z 256). lia.
  - intros z k. unfold char_of_int. do 2 f_equal.
    by rewrite Z.mul_comm, Z.mod_add by lia.
Qed.

Lemma char_int_casts_witness : int_of_char (char_of_int (-61)) = -61.
Proof. apply (proj1 (proj2 char_int_casts) (-61)). lia. Defined.

(** X15: [buildCode] only touches the entries of the symbols at the leaves
    of the tree: the keys of the result are those of the table it was
    given together with the leaf symbols, and the entry of every other
    symbol is unchanged. *)
Theorem buildCode_frame (root : Node) (str : cstring)
    (codes : gmap ascii cstring) :
  dom (buildCode root str codes) = list_to_set (leaves root) ∪ dom codes
  ∧ ∀ c, c ∉ leaves root → buildCode root str codes !! c = codes !! c.
Proof.
  rewrite buildCode_code_list. split.
  - by rewrite foldl_write_entry_dom, code_list_leaves.
  - intros c Hc. apply foldl_write_entry_frame. by rewrite code_list_leaves.
Qed.

Lemma buildCode_frame_witness :
  buildCode (node "000" 3 (node "a" 1 NULL NULL) (node "b" 2 NULL NULL)) []
            {["z"%char := lit "111"]} !! "z"%char
  = Some (lit "111").
Proof.
  rewrite (proj2 (buildCode_frame
                    (node "000" 3 (node "a" 1 NULL NULL) (node "b" 2 NULL NULL))
                    [] {["z"%char := lit "111"]})).
  - reflexivity.
  - simpl. intros Hin.
    repeat (apply elem_of_cons in Hin as [Hin|Hin]; [discriminate|]).
    by apply elem_of_nil in Hin.
Defined.

(** ** Every run of [main] *)

Section Runs.
Context `{StdImpl}.

Lemma failure_well_formed msg : well_formed_outcome (failure msg).
Proof. right. done. Qed.

Lemma encode_mode_outcome text :
  ∃ o, encode_mode text = Some o ∧ well_formed_outcome o
       ∧ (exit_code o = 0 ↔ text ≠ []).
Proof.
  destruct (decide (text = [])) as [->|Htext].
  - exists (failure "Error: Empty text"). split; [done|].
    split; [apply failure_well_formed|]. done.
  - destruct (encode_mode_ok text Htext) as (root & _ & _ & ->).
    eexists. split; [done|]. split; [left; simpl; eauto|done].
Qed.

Lemma decode_mode_outcome bits stdin :
  ∃ o, decode_mode bits stdin = Some o ∧ well_formed_outcome o
       ∧ (exit_code o = 0 ↔ bits ≠ [] ∧ stdin ≠ []).
Proof.
  unfold decode_mode. destruct (decide (bits = [])) as [->|Hbits].
  { eexists. split; [done|]. split; [apply failure_well_formed|].
    simpl. split; [done|]. by intros [? _]. }
  destruct (decide (read_code_map stdin = ∅)) as [Hempty|Hmap].
  { eexists. split; [done|]. split; [apply failure_well_formed|].
    apply read_code_map_empty_iff in Hempty as ->. simpl.
    split; [done|]. by intros [_ ?]. }
  destruct (decode_loop _ bits [] []) as [decoded current].
  eexists. split; [done|]. split; [left; simpl; eauto|]. simpl.
  split; [|done]. intros _. split; [done|].
  intros ->. by apply Hmap.
Qed.


(** X2: a run succeeds exactly when the mode is "encode" or "decode", its
    argument is present and non-empty and, for "decode", at least one line
    of the code map could be read from standard input. *)
Theorem main_success_iff (argv : list cstring) (stdin : list (Z * cstring)) :
  ∃ o, main argv stdin = Some o
    ∧ (exit_code o = 0
       ↔ ∃ prog arg rest, arg ≠ []
           ∧ (argv = prog :: lit "encode" :: arg :: rest
              ∨ (argv = prog :: lit "decode" :: arg :: rest ∧ stdin ≠ []))).
Proof.
  destruct argv as [|prog [|mode [|arg rest]]]; unfold main.
  - eexists. split; [done|]. split; [done|].
    by intros (? & ? & ? & _ & [?|[? _]]).
  - eexists. split; [done|]. split; [done|].
    by intros (? & ? & ? & _ & [?|[? _]]).
  - destruct (decide (mode = lit "encode")); [|destruct (decide _)];
      (eexists; split; [done|]; split; [done|]);
      by intros (? & ? & ? & _ & [?|[? _]]).
  - destruct (decide (mode = lit "encode")) as [->|Hne].
    { destruct (encode_mode_outcome arg) as (o & -> & _ & Hiff).
      exists o. split; [done|]. rewrite Hiff. split.
      - intros Harg. exists prog, arg, rest. auto.
      - by intros (? & ? & ? & Harg & [[= _ <- _]|[[=] _]]). }
    destruct (decide (mode = lit "decode")) as [->|Hnd].
    { destruct (decode_mode_outcome arg stdin) as (o & -> & _ & Hiff).
      exists o. split; [done|]. rewrite Hiff. split.
      - intros [Harg Hin]. exists prog, arg, rest. auto.
      - by intros (? & ? & ? & Harg & [[=]|[[= _ <- _] Hin]]). }
    eexists. split; [done|]. split; [done|].
    intros (? & ? & ? & _ & [[= _ Hm _]|[[= _ Hm _] _]]); by subst.
Qed.
End Runs.

(** ** Decoding a truncated bitstring *)



Lemma decode_loop_unmatched revCodes bits decoded current :
  unmatched revCodes (current ++ bits) →
  decode_loop revCodes bits decoded current = (decoded, current ++ bits).
Proof.
  revert current; induction bits as [|b bits IH]; intros current Hun.
  - by rewrite app_nil_r.
  - simpl. rewrite Hun.
    + replace (current ++ b :: bits) with ((current ++ [b]) ++ bits)
        by by rewrite <- app_assoc.
      apply IH. by rewrite <- app_assoc.
    + by destruct current.
    + exists bits. by rewrite <- app_assoc.
Qed.

Section Truncated.
Context `{StdImpl}.

End Truncated.


(** ** Decoding an arbitrary bitstring with a Huffman table *)






Section Complete.
Context `{StdImpl}.

End Complete.


(** ** Decoding with the table of the single character case *)

Lemma single_table_lookup (c : ascii) (p : cstring) :
  read_code_map [(int_of_char c, lit "0")] !! p
  = if decide (p = lit "0") then Some c else None.
Proof.
  unfold read_code_map. cbn [foldl]. rewrite char_of_int_of_char.
  destruct (decide (p = lit "0")) as [->|Hne].
  - by rewrite lookup_insert_eq.
  - by rewrite lookup_insert_ne, lookup_empty.
Qed.

Lemma single_table_decode_loop (c : ascii) (bits decoded : cstring) :
  decode_loop (read_code_map [(int_of_char c, lit "0")]) bits decoded []
  = (decoded ++ replicate (leading_zeros bits) c,
     drop (leading_zeros bits) bits).
Proof.
  revert decoded; induction bits as [|b bits IH]; intros decoded.
  - simpl. by rewrite app_nil_r.
  - cbn [decode_loop leading_zeros]. rewrite single_table_lookup.
    destruct (decide (b = "0"%char)) as [->|Hb].
    + rewrite decide_True by done. rewrite IH. simpl.
      by rewrite <- app_assoc.
    + rewrite decide_False by (simpl; congruence).
      rewrite (decode_loop_unmatched _ bits decoded ([] ++ [b])).
      * simpl. by rewrite app_nil_r.
      * intros p Hp Hpre. rewrite single_table_lookup.
        rewrite decide_False; [done|]. intros ->.
        simpl in Hpre. by apply prefix_cons_inv_1 in Hpre.
Qed.

(** X18: with the one-line code map of a single-symbol text (symbol [c],
    code "0"), the decode mode prints one [c] per leading '0' of the
    bitstring and stops matching at the first other character: whatever
    follows is left in the candidate, with the warning. *)
Theorem single_symbol_decode (c : ascii) (bits : cstring) :
  bits ≠ [] →
  decode_mode bits [(int_of_char c, lit "0")]
  = Some {| exit_code := 0;
            stdout := Some (PrintedText (replicate (leading_zeros bits) c));
            stderr := if decide (leading_zeros bits = length bits) then []
                      else ["Warning: Incomplete code at end"%string] |}.
Proof.
  intros Hbits. unfold decode_mode.
  destruct (decide (bits = [])); [done|].
  destruct (decide (read_code_map _ = ∅)) as [Hempty|_].
  { pose proof (single_table_lookup c (lit "0")) as Hl.
    by rewrite Hempty, lookup_empty in Hl. }
  rewrite single_table_decode_loop. simpl. do 2 f_equal.
  assert (Hle : (leading_zeros bits ≤ length bits)%nat).
  { clear. induction bits as [|b bits IH]; simpl; [lia|].
    destruct (decide _); simpl; lia. }
  destruct (decide (leading_zeros bits = length bits)) as [Heq|Hne].
  - rewrite decide_True; [done|]. apply drop_ge. lia.
  - rewrite decide_False; [done|]. intros Hnil.
    apply (f_equal length) in Hnil. rewrite length_drop in Hnil.
    simpl in Hnil. lia.
Qed.

Lemma single_symbol_decode_witness :
  decode_mode (lit "0010") [(97, lit "0")]
  = Some {| exit_code := 0; stdout := Some (PrintedText (lit "aa"));
            stderr := ["Warning: Incomplete code at end"%string] |}.
Proof.
  apply (single_symbol_decode "a"%char (lit "0010")). simpl. discriminate.
Defined.

(** ** The comparator *)

(** X19: [cmp] is a strict weak ordering, as [priority_queue] requires of
    its comparator: it is irreflexive and transitive, and so is
    incomparability (having equal frequencies). *)
Theorem cmp_strict_weak_order :
  (∀ a, cmp a a = false)
  ∧ (∀ a b c, cmp a b = true → cmp b c = true → cmp a c = true)
  ∧ (∀ a b c, cmp a b = false → cmp b a = false →
              cmp b c = false → cmp c b = false →
              cmp a c = false ∧ cmp c a = false)
  ∧ (∀ a b, cmp a b = true ↔ node_freq b < node_freq a).
Proof.
  unfold cmp. repeat split; intros; lia.
Qed.

(** ** The two parts of the output of the encode mode agree *)

Lemma occurrences_indicator_sum (K : cstring) (x : ascii) (g : ascii → Z) :
  NoDup K → x ∈ K →
  foldr Z.add 0 ((λ c, (if decide (c = x) then 1 else 0) * g c) <$> K) = g x.
Proof.
  induction 1 as [|c K Hc Hnd IH]; intros Hx.
  - by apply elem_of_nil in Hx.
  - csimpl. destruct (decide (c = x)) as [->|Hne].
    + assert (Hzero : foldr Z.add 0
                ((λ c, (if decide (c = x) then 1 else 0) * g c) <$> K) = 0).
      { clear -Hc. induction K as [|c K IH]; [done|].
        apply not_elem_of_cons in Hc as [Hne Hc]. csimpl.
        rewrite decide_False by done. rewrite IH by done. lia. }
      rewrite Hzero. lia.
    + apply elem_of_cons in Hx as [->|Hx]; [done|]. rewrite IH by done. lia.
Qed.

(** The length of an encoding, symbol by symbol of the alphabet. *)
Lemma length_bind_by_symbol (f : ascii → cstring) (K text : cstring) :
  NoDup K → (∀ c, c ∈ text → c ∈ K) →
  Z.of_nat (length (text ≫= f))
  = foldr Z.add 0 ((λ c, occurrences c text * Z.of_nat (length (f c))) <$> K).
Proof.
  intros Hnd. induction text as [|x text IH]; intros Hall.
  - csimpl. clear. induction K as [|c K IH]; [done|]. csimpl. rewrite <- IH.
    unfold occurrences. csimpl. lia.
  - rewrite bind_cons, length_app, Nat2Z.inj_add, IH
      by (intros c Hc; apply Hall; by right).
    rewrite <- (occurrences_indicator_sum K x (λ c, Z.of_nat (length (f c))))
      by (done || apply Hall; left).
    clear. induction K as [|c K IH]; [done|]. csimpl. rewrite <- IH.
    destruct (decide (c = x)) as [->|Hne].
    + rewrite occurrences_cons_eq. lia.
    + rewrite occurrences_cons_ne by done. lia.
Qed.

Section OutputAgreement.
Context `{StdImpl}.

(** X20: the bitstring printed by the encode mode is the concatenation, in
    the order of the text, of the codes that the printed code map gives
    for the characters of the text. *)
Theorem encoded_is_concatenation_of_map_codes
    (prog text : cstring) (stdin : list (Z * cstring)) :
  text ≠ [] →
  ∃ encoded map (table : ascii → cstring),
    main [prog; lit "encode"; text] stdin
    = Some {| exit_code := 0; stdout := Some (PrintedCode encoded map);
              stderr := [] |}
    ∧ (∀ c, c ∈ text → (int_of_char c, table c) ∈ map)
    ∧ encoded = text ≫= table.
Proof.
  intros Htext.
  destruct (encode_mode_ok text Htext) as (root & Hroot & Hdom & Hrun).
  eexists _, _, (code_of (buildCode root [] ∅)). split; [exact Hrun|].
  split; [|done]. intros c Hc. apply elem_of_print_code_map.
  exists c. split; [done|]. unfold code_of.
  assert (Hin : c ∈ dom (buildCode root [] ∅))
    by (rewrite Hdom; by apply elem_of_list_to_set).
  apply elem_of_dom in Hin as [s Hs]. by rewrite Hs.
Qed.

(** X21: the number of bits printed by the encode mode is the sum, over
    the lines of the printed code map, of the number of occurrences of the
    line's character in the text times the length of the line's code. *)
Theorem encoded_length_is_weighted_sum
    (prog text : cstring) (stdin : list (Z * cstring)) :
  text ≠ [] →
  ∃ encoded map,
    main [prog; lit "encode"; text] stdin
    = Some {| exit_code := 0; stdout := Some (PrintedCode encoded map);
              stderr := [] |}
    ∧ Z.of_nat (length encoded)
      = foldr Z.add 0
          ((λ e, occurrences (char_of_int e.1) text * Z.of_nat (length e.2))
             <$> map).
Proof.
  intros Htext.
  destruct (encode_mode_ok text Htext) as (root & Hroot & Hdom & Hrun).
  set (codes := buildCode root [] ∅) in *.
  eexists _, _. split; [exact Hrun|].
  assert (Hkeys : NoDup (umap_iter codes).*1)
    by (rewrite umap_iter_perm; apply NoDup_fst_map_to_list).
  rewrite (length_bind_by_symbol _ (umap_iter codes).*1 text Hkeys).
  - unfold print_code_map. rewrite <- !list_fmap_compose.
    f_equal. apply list_fmap_ext. intros i [c s] Hi. simpl.
    rewrite char_of_int_of_char. do 2 f_equal.
    apply list_elem_of_lookup_2, elem_of_umap_iter in Hi.
    unfold code_of. by rewrite Hi.
  - intros c Hc.
    assert (Hin : c ∈ dom codes) by (rewrite Hdom; by apply elem_of_list_to_set).
    apply elem_of_dom in Hin as [s Hs]. apply list_elem_of_fmap.
    exists (c, s). split; [done|]. by apply elem_of_umap_iter.
Qed.
End OutputAgreement.

Lemma encoded_is_concatenation_of_map_codes_witness :
  ∃ encoded map (table : ascii → cstring),
    @main ListImpl.impl [lit "huffman"; lit "encode"; lit "abracadabra"] []
    = Some {| exit_code := 0; stdout := Some (PrintedCode encoded map);
              stderr := [] |}
    ∧ (∀ c, c ∈ lit "abracadabra" → (int_of_char c, table c) ∈ map)
    ∧ encoded = lit "abracadabra" ≫= table.
Proof.
  apply (@encoded_is_concatenation_of_map_codes ListImpl.impl (lit "huffman")
           (lit "abracadabra") []).
  simpl. discriminate.
Defined.

Lemma encoded_length_is_weighted_sum_witness :
  ∃ encoded map,
    @main ListImpl.impl [lit "huffman"; lit "encode"; lit "abracadabra"] []
    = Some {| exit_code := 0; stdout := Some (PrintedCode encoded map);
              stderr := [] |}
    ∧ Z.of_nat (length encoded)
      = foldr Z.add 0
          ((λ e, occurrences (char_of_int e.1) (lit "abracadabra")
                 * Z.of_nat (length e.2)) <$> map).
Proof.
  apply (@encoded_length_is_weighted_sum ListImpl.impl (lit "huffman")
           (lit "abracadabra") []).
  simpl. discriminate.
Defined.
